(** * Procedural terrain engine of [js/game.js]: a shallow embedding

    The development follows the source file class by class: the gradient
    noise ([ImprovedNoise]), its fractal composition ([fbm]), the tile grid
    of a [Chunk] and the chunk cache and queries of [Terrain].

    Numbers.  A JavaScript number is modelled by an exact rational ([Q]);
    integers that the source obtains through [Math.floor], [&] or loop
    counters are [Z].  Rounding of IEEE doubles and the non-finite values
    (NaN, the infinities) are outside the model.  The source can reach a
    non-finite value from finite inputs in two places: the final division
    of [fbm], which the embedding makes explicit by returning [None] for a
    zero divisor, and the quotients and remainders by the chunk size of a
    terrain, for which the embedding is meant for a chunk size other than
    zero.  Decimal literals (0.43, 0.03, 2.1, ...) are the exact decimal
    fractions.

    Objects.  A [Chunk] is a heap object: the terrain's store is the list of
    all chunks ever constructed, in construction order, and the [Map] of the
    source maps a key string to a position in that store. *)

From Stdlib Require Import ZArith QArith Qround Lqa Lia Ascii.
From stdpp Require Import base option list strings pretty gmap.

Local Open Scope Z_scope.

(** ** JavaScript primitives used by the source *)

Module JS.

(** [ToInt32]: the conversion applied to both operands of [&]; the
    mathematical integer is wrapped into the signed 32-bit range. *)
Definition ToInt32 (n : Z) : Z := (n + 2 ^ 31) mod 2 ^ 32 - 2 ^ 31.

(** [a & b] on integer-valued numbers. *)
Definition band (a b : Z) : Z := Z.land (ToInt32 a) (ToInt32 b).

(** [undefined & b]: [ToInt32(undefined)] is 0. *)
Definition band_opt (a : option Z) (b : Z) : Z :=
  match a with Some h => band h b | None => band 0 b end.

(** [Math.floor]. *)
Definition floor (x : Q) : Z := Qfloor x.

(** [a % b] on integer-valued numbers, for [b <> 0]: the remainder has the
    sign of the dividend. *)
Definition rem (a b : Z) : Z := Z.rem a b.

(** [arr[i]] for an integer-valued index: [None] is [undefined], also for a
    negative index. *)
Definition index {A} (arr : list A) (i : Z) : option A :=
  if i <? 0 then None else arr !! Z.to_nat i.

(** [arr[i]] where the index itself may be NaN ([None]): a NaN index names
    no element. *)
Definition index_opt {A} (arr : list A) (i : option Z) : option A :=
  match i with Some i => index arr i | None => None end.

(** [a + b] where [a] may be [undefined]: [undefined + b] is NaN. *)
Definition add_opt (a : option Z) (b : Z) : option Z :=
  match a with Some a => Some (a + b) | None => None end.

(** [a / b]: [None] when the divisor is zero (the quotient is NaN or an
    infinity). *)
Definition div (a b : Q) : option Q :=
  if Qeq_bool b 0 then None else Some (a / b)%Q.

(** [a < b] and [a >= b] on finite numbers. *)
Definition ltb (a b : Q) : bool := negb (Qle_bool b a).
Definition geb (a b : Q) : bool := Qle_bool b a.

End JS.

(** [lerp(t, a, b)], source lines 9-11. *)
Definition lerp (t a b : Q) : Q := (a + t * (b - a))%Q.

(** ** class ImprovedNoise *)

Module ImprovedNoise.

(** The constructor, source lines 21-26 (and 409-412, the same text):
    [Array.from({length: 256}, () => Math.floor(Math.random() * 256))]
    followed by [[...p, ...p]].  [rnd i] is the result of the [i]-th call of
    [Math.random]. *)
Definition entry (rnd : nat → Q) (i : nat) : Z := JS.floor (rnd i * 256)%Q.

Definition new (rnd : nat → Q) : list Z :=
  let p := map (entry rnd) (seq 0 256) in
  p ++ p.

(** [Math.random] returns a number in [0, 1). *)
Definition random_source (rnd : nat → Q) : Prop :=
  ∀ i, (0 <= rnd i)%Q ∧ (rnd i < 1)%Q.

Definition fade (t : Q) : Q := (t * t * t * (t * (t * 6 - 15) + 10))%Q.

Definition grad (hash : option Z) (x y : Q) : Q :=
  let h := JS.band_opt hash 3 in
  let u := if h <? 2 then x else y in
  let v := if h <? 2 then y else x in
  ((if JS.band h 1 =? 0 then u else - u) +
   (if JS.band h 2 =? 0 then v else - v))%Q.

(** The lattice cell and the table indices of [noise], lines 40-48. *)
Definition cell (x : Q) : Z := JS.band (JS.floor x) 255.
Definition frac (x : Q) : Q := (x - inject_Z (JS.floor x))%Q.
Definition hashA (p : list Z) (x y : Q) : option Z :=
  JS.add_opt (JS.index p (cell x)) (cell y).
Definition hashB (p : list Z) (x y : Q) : option Z :=
  JS.add_opt (JS.index p (cell x + 1)) (cell y).

Definition noise (p : list Z) (x y : Q) : Q :=
  let A := hashA p x y in
  let B := hashB p x y in
  let x' := frac x in
  let y' := frac y in
  let u := fade x' in
  let v := fade y' in
  lerp v
    (lerp u (grad (JS.index_opt p A) x' y')
            (grad (JS.index_opt p B) (x' - 1) y'))
    (lerp u (grad (JS.index_opt p (JS.add_opt A 1)) x' (y' - 1))
            (grad (JS.index_opt p (JS.add_opt B 1)) (x' - 1) (y' - 1))).

End ImprovedNoise.

(** ** function fbm, source lines 63-77 (and 451-465) *)

(** The [for] loop: [n] iterations remain; the four accumulators are the
    loop's local variables. *)
Fixpoint fbm_loop (n : nat) (noise : Q → Q → Q) (x y lacunarity gain : Q)
    (value amplitude frequency maxValue : Q) : Q * Q :=
  match n with
  | O => (value, maxValue)
  | S n =>
      fbm_loop n noise x y lacunarity gain
        (value + noise (x * frequency) (y * frequency) * amplitude)%Q
        (amplitude * gain)%Q
        (frequency * lacunarity)%Q
        (maxValue + amplitude)%Q
  end.

(** [noise] is the [noise] method of the object passed to [fbm];
    [octaves] is integer-valued, so the loop runs [Z.to_nat octaves]
    times. *)
Definition fbm (x y : Q) (noise : Q → Q → Q) (octaves : Z)
    (lacunarity gain : Q) : option Q :=
  let '(value, maxValue) :=
    fbm_loop (Z.to_nat octaves) noise x y lacunarity gain 0 1 1 0 in
  JS.div value maxValue.

(** ** class Chunk, source lines 80-125 *)

Module Chunk.

Record t : Type := mk {
  chunkX : Z;
  chunkY : Z;
  tileSize : Z;
  size : Z;
  tiles : list (list Q)
}.

(** The body of the inner loop of [generateTiles], lines 100-102.  The call
    passes 8 octaves and gain 0.45, for which the divisor of [fbm] is not
    zero (lemma [fbm_chunk_defined] below), so the default is never used. *)
Definition tileValue (noise : Q → Q → Q) (worldX worldY : Z) : Q :=
  default 0%Q
    (fbm (inject_Z worldX * (3 # 100)) (inject_Z worldY * (3 # 100)) noise
         8 (21 # 10) (45 # 100)).

Definition worldCoord (chunk size local : Z) : Z := chunk * size + local.

Definition generateTiles (chunkX chunkY size : Z) (noise : Q → Q → Q)
    : list (list Q) :=
  map (λ y : nat,
         map (λ x : nat,
                tileValue noise (worldCoord chunkX size (Z.of_nat x))
                                (worldCoord chunkY size (Z.of_nat y)))
             (seq 0 (Z.to_nat size)))
      (seq 0 (Z.to_nat size)).

Definition new (chunkX chunkY tileSize size : Z) (noise : Q → Q → Q) : t :=
  mk chunkX chunkY tileSize size (generateTiles chunkX chunkY size noise).

End Chunk.

(** ** class Terrain, source lines 128-191 *)

(** The classes that the comments of [getColor] name, in threshold order. *)
Inductive TerrainClass : Type := Water | Sand | Grass | Dirt | Rock | Snow.

Definition fillStyle (c : TerrainClass) : string :=
  match c with
  | Water => "#3366cc"
  | Sand => "#e2ca76"
  | Grass => "#996633"
  | Dirt => "#669933"
  | Rock => "#cccccc"
  | Snow => "#ffffff"
  end.

Definition rank (c : TerrainClass) : nat :=
  match c with
  | Water => 0 | Sand => 1 | Grass => 2 | Dirt => 3 | Rock => 4 | Snow => 5
  end%nat.

(** [const norm = (value + 1) / 2], the first line of [getColor] and the
    second of [isPositionWalkable]. *)
Definition norm (value : Q) : Q := ((value + 1) / 2)%Q.

(** What a method call yields: a value, or the [TypeError] raised when a
    property of [undefined] is read. *)
Inductive result (A : Type) : Type :=
  | Ok (a : A)
  | TypeError.
Arguments Ok {A} a.
Arguments TypeError {A}.

Module Terrain.

(** [chunks] is the private [Map]; [store] holds every chunk object that
    [new Chunk] has built, oldest first, and a chunk object is named by its
    position in it. *)
Record t : Type := mk {
  tileSize : Z;
  chunkSize : Z;
  noise : Q → Q → Q;
  chunks : gmap string nat;
  store : list Chunk.t
}.

Definition new (tileSize chunkSize : Z) (noise : Q → Q → Q) : t :=
  mk tileSize chunkSize noise ∅ [].

(** The template string [`${chunkX},${chunkY}`]: each integer in decimal,
    with a leading minus sign when negative (the form that number-to-string
    conversion gives below 10^21). *)
Definition key (chunkX chunkY : Z) : string :=
  pretty chunkX +:+ "," +:+ pretty chunkY.

(** [getChunk], lines 141-148.  The result is what [Map.get] returns. *)
Definition getChunk (T : t) (chunkX chunkY : Z) : option nat * t :=
  let k := key chunkX chunkY in
  let T' :=
    if bool_decide (is_Some (chunks T !! k)) then T
    else
      let chunk := Chunk.new chunkX chunkY (tileSize T) 16 (noise T) in
      mk (tileSize T) (chunkSize T) (noise T)
         (<[k := length (store T)]> (chunks T))
         (store T ++ [chunk]) in
  (chunks T' !! k, T').

(** [getColor], lines 150-158: the class chosen by the threshold chain,
    then its colour string. *)
Definition classify (value : Q) : TerrainClass :=
  if JS.ltb (norm value) (43 # 100) then Water
  else if JS.ltb (norm value) (45 # 100) then Sand
  else if JS.ltb (norm value) (48 # 100) then Grass
  else if JS.ltb (norm value) (65 # 100) then Dirt
  else if JS.ltb (norm value) (75 # 100) then Rock
  else Snow.

Definition getColor (value : Q) : string := fillStyle (classify value).

(** The decomposition of [getValue], lines 161-166, for a chunk size other
    than zero. *)
Definition chunkCoord (chunkSize : Z) (x : Q) : Z :=
  JS.floor (x / inject_Z chunkSize).

Definition localCoord (chunkSize : Z) (x : Q) : Z :=
  JS.rem (JS.rem (JS.floor x) chunkSize + chunkSize) chunkSize.

(** [chunk.tiles[localY][localX] ?? -1], line 168: reading an element of a
    missing row raises; a missing cell of an existing row is replaced by
    -1. *)
Definition readTile (tiles : list (list Q)) (localX localY : Z) : result Q :=
  match JS.index tiles localY with
  | None => TypeError
  | Some row => Ok (default (-1)%Q (JS.index row localX))
  end.

(** [getValue], lines 160-169. *)
Definition getValue (T : t) (x y : Q) : result Q * t :=
  let chunkX := chunkCoord (chunkSize T) x in
  let chunkY := chunkCoord (chunkSize T) y in
  let localX := localCoord (chunkSize T) x in
  let localY := localCoord (chunkSize T) y in
  let '(chunk, T') := getChunk T chunkX chunkY in
  (match chunk ≫= (λ l, store T' !! l) with
   | None => TypeError
   | Some c => readTile (Chunk.tiles c) localX localY
   end, T').

(** [isPositionWalkable], lines 171-175. *)
Definition isPositionWalkable (T : t) (x y : Q) : result bool * t :=
  let '(value, T') := getValue T x y in
  (match value with
   | Ok v => Ok (JS.geb (norm v) (43 # 100))
   | TypeError => TypeError
   end, T').

(** [draw], lines 177-190.  Painting a chunk ([chunk.draw]) only reads the
    chunk and writes to the canvas, which is not part of the model; the
    result lists the chunks handed to it, in loop order. *)
Definition viewRadius : Z := 3.

Definition offsets : list Z :=
  map (λ i : nat, Z.of_nat i - viewRadius)
      (seq 0 (Z.to_nat (2 * viewRadius + 1))).

Definition window (camChunkX camChunkY : Z) : list (Z * Z) :=
  dy ← offsets; dx ← offsets; [(camChunkX + dx, camChunkY + dy)].

Definition drawLoop (T : t) (cs : list (Z * Z)) : list (option nat) * t :=
  foldl (λ (acc : list (option nat) * t) (c : Z * Z),
           let '(chunk, T') := getChunk acc.2 c.1 c.2 in
           (acc.1 ++ [chunk], T'))
        ([], T) cs.

Definition draw (T : t) (cameraX cameraY : Q) : list (option nat) * t :=
  let camChunkX := chunkCoord (chunkSize T) cameraX in
  let camChunkY := chunkCoord (chunkSize T) cameraY in
  drawLoop T (window camChunkX camChunkY).

End Terrain.

(** The second variant of the file (lines 390-642) differs from the first,
    as far as the terrain engine goes, in two places: [getChunk] passes
    [this.chunkSize] instead of 16 to [new Chunk], and [getColor], given
    here, puts the Rock/Snow threshold at 0.95.  It has no [getValue] and
    no [isPositionWalkable]. *)
Module TerrainV2.

Definition classify (value : Q) : TerrainClass :=
  if JS.ltb (norm value) (43 # 100) then Water
  else if JS.ltb (norm value) (45 # 100) then Sand
  else if JS.ltb (norm value) (48 # 100) then Grass
  else if JS.ltb (norm value) (65 # 100) then Dirt
  else if JS.ltb (norm value) (95 # 100) then Rock
  else Snow.

Definition getColor (value : Q) : string := fillStyle (classify value).

End TerrainV2.

(** * Vocabulary of the statements *)

(** A noise sample within the nominal range. *)
Definition in_unit (s : Q) : Prop := (-1 <= s)%Q ∧ (s <= 1)%Q.

(** The samples that the loop of [fbm] takes, in order: iteration [i] calls
    [noise.noise(x * frequency, y * frequency)] with the frequency reached
    after [i] multiplications by [lacunarity]. *)
Fixpoint fbm_samples (n : nat) (noise : Q → Q → Q) (x y lacunarity : Q)
    (frequency : Q) : list Q :=
  match n with
  | O => []
  | S n =>
      noise (x * frequency)%Q (y * frequency)%Q
      :: fbm_samples n noise x y lacunarity (frequency * lacunarity)%Q
  end.

(** Powers, finite sums, and the frequency that the loop of [fbm] has
    reached after [i] iterations when it started from [frequency]. *)
Fixpoint Qpow (q : Q) (n : nat) : Q :=
  match n with
  | O => 1%Q
  | S n => (q * Qpow q n)%Q
  end.

Fixpoint Qsum (f : nat → Q) (n : nat) : Q :=
  match n with
  | O => 0%Q
  | S n => (Qsum f n + f n)%Q
  end.

Fixpoint frequency_after (i : nat) (lacunarity frequency : Q) : Q :=
  match i with
  | O => frequency
  | S i => frequency_after i lacunarity (frequency * lacunarity)%Q
  end.

(** The threshold table of the specification, for a classifier [cls] and
    a Rock/Snow threshold [rockMax]: each class is chosen exactly on its
    interval of the normalised height, closed below and open above. *)
Definition step_table (cls : Q → TerrainClass) (rockMax : Q) (v : Q) : Prop :=
  (cls v = Water ↔ (norm v < 43 # 100)%Q)
  ∧ (cls v = Sand ↔ (43 # 100 <= norm v)%Q ∧ (norm v < 45 # 100)%Q)
  ∧ (cls v = Grass ↔ (45 # 100 <= norm v)%Q ∧ (norm v < 48 # 100)%Q)
  ∧ (cls v = Dirt ↔ (48 # 100 <= norm v)%Q ∧ (norm v < 65 # 100)%Q)
  ∧ (cls v = Rock ↔ (65 # 100 <= norm v)%Q ∧ (norm v < rockMax)%Q)
  ∧ (cls v = Snow ↔ (rockMax <= norm v)%Q).

(** A string without the separator of the cache keys. *)
Fixpoint no_comma (s : string) : Prop :=
  match s with
  | EmptyString => True
  | String c s => c ≠ ","%char ∧ no_comma s
  end.

(** How often [new Chunk] has run for the pair [(chunkX, chunkY)]: the
    number of chunk objects in the store that were built for it. *)
Definition ctor_runs (T : Terrain.t) (chunkX chunkY : Z) : nat :=
  length (filter (λ c, Chunk.chunkX c = chunkX ∧ Chunk.chunkY c = chunkY)
                 (Terrain.store T)).

(** A run of [getChunk] calls; the state after it. *)
Definition getChunk_seq (T : Terrain.t) (calls : list (Z * Z)) : Terrain.t :=
  foldl (λ T c, (Terrain.getChunk T c.1 c.2).2) T calls.

(** The cache and the store agree: a key of the map leads to the chunk
    built for the pair it was made from, with the terrain's tile size and
    noise and edge length 16, and every chunk of the store is the one
    registered under the key of its pair. *)
Definition coherent (T : Terrain.t) : Prop :=
  (∀ k l, Terrain.chunks T !! k = Some l →
     ∃ cx cy, k = Terrain.key cx cy
       ∧ Terrain.store T !! l
         = Some (Chunk.new cx cy (Terrain.tileSize T) 16 (Terrain.noise T)))
  ∧ (∀ l c, Terrain.store T !! l = Some c →
       Terrain.chunks T !! Terrain.key (Chunk.chunkX c) (Chunk.chunkY c) = Some l).

(** The construction count of a pair is 1 when its key is cached and 0
    otherwise. *)
Definition counted (T : Terrain.t) : Prop :=
  ∀ cx cy,
    ctor_runs T cx cy
    = match Terrain.chunks T !! Terrain.key cx cy with
      | Some _ => 1%nat
      | None => 0%nat
      end.

(** The public operations of a terrain and a run of them. *)
Inductive Op : Type :=
  | OpGetValue (x y : Q)
  | OpIsPositionWalkable (x y : Q)
  | OpGetColor (value : Q)
  | OpDraw (cameraX cameraY : Q).

Definition step (T : Terrain.t) (o : Op) : Terrain.t :=
  match o with
  | OpGetValue x y => (Terrain.getValue T x y).2
  | OpIsPositionWalkable x y => (Terrain.isPositionWalkable T x y).2
  | OpGetColor _ => T
  | OpDraw cameraX cameraY => (Terrain.draw T cameraX cameraY).2
  end.

Definition run (T : Terrain.t) (ops : list Op) : Terrain.t := foldl step T ops.

(** The chunk pairs that an operation passes to [getChunk], in order. *)
Definition requested (chunkSize : Z) (o : Op) : list (Z * Z) :=
  match o with
  | OpGetValue x y | OpIsPositionWalkable x y =>
      [(Terrain.chunkCoord chunkSize x, Terrain.chunkCoord chunkSize y)]
  | OpGetColor _ => []
  | OpDraw cameraX cameraY =>
      Terrain.window (Terrain.chunkCoord chunkSize cameraX)
                     (Terrain.chunkCoord chunkSize cameraY)
  end.

(** Square (Chebyshev) distance at most [viewRadius] between chunk pairs. *)
Definition in_view (camChunkX camChunkY chunkX chunkY : Z) : Prop :=
  Z.abs (chunkX - camChunkX) <= Terrain.viewRadius
  ∧ Z.abs (chunkY - camChunkY) <= Terrain.viewRadius.

(** When an operation makes the terrain hold a chunk for [(chunkX, chunkY)]:
    a height or walkability query does for the chunk that contains the
    queried point, a draw does for the chunks in view of the camera's
    chunk, and a colour lookup never does. *)
Definition demands (chunkSize : Z) (o : Op) (chunkX chunkY : Z) : Prop :=
  match o with
  | OpGetValue x y | OpIsPositionWalkable x y =>
      chunkX = Terrain.chunkCoord chunkSize x
      ∧ chunkY = Terrain.chunkCoord chunkSize y
  | OpGetColor _ => False
  | OpDraw cameraX cameraY =>
      in_view (Terrain.chunkCoord chunkSize cameraX)
              (Terrain.chunkCoord chunkSize cameraY) chunkX chunkY
  end.

(** A table index that is a number in [0, 512) and names an element. *)
Definition hits (p : list Z) (i : option Z) : Prop :=
  ∃ k, i = Some k ∧ 0 <= k < 512 ∧ is_Some (JS.index p k).

(** Two sources for [Math.random]: one that always returns 0, and one whose
    [i]-th result is [(i mod 256) / 256], which fills the table with
    0, 1, ..., 255. *)
Definition rnd_zero (i : nat) : Q := 0%Q.
Definition rnd_ramp (i : nat) : Q := (Z.of_nat i mod 256 # 256)%Q.

(** A sampler with values in {-1, 1}. *)
Definition spike (x y : Q) : Q := if Qle_bool x (1 # 2) then 1%Q else (-1)%Q.

(** * The player and the keyboard *)

(** [const TILE_SIZE = 20], line 7. *)
Definition TILE_SIZE : Q := 20%Q.

(** ** class Player, source lines 215-258 (with the fields that the
    [Entity] constructor sets, lines 200-202) *)

Module Player.

Record t : Type := mk {
  x : Q;
  y : Q;
  moveDir : Q * Q;
  speed : Q
}.

Definition new (x y : Q) : t := mk x y (0%Q, 0%Q) 50%Q.

(** The position that [update] proposes, lines 236-238. *)
Definition moveStep (P : t) (deltaTime : Q) : Q :=
  (speed P * deltaTime / 1000)%Q.

Definition newX (P : t) (deltaTime : Q) : Q :=
  (x P + (moveDir P).1 * moveStep P deltaTime / TILE_SIZE)%Q.

Definition newY (P : t) (deltaTime : Q) : Q :=
  (y P + (moveDir P).2 * moveStep P deltaTime / TILE_SIZE)%Q.

(** [update], lines 235-244: the move is taken only if the proposed
    position is walkable; an exception of the query propagates. *)
Definition update (P : t) (deltaTime : Q) (T : Terrain.t)
    : result t * Terrain.t :=
  let '(walkable, T') :=
    Terrain.isPositionWalkable T (newX P deltaTime) (newY P deltaTime) in
  (match walkable with
   | Ok true => Ok (mk (newX P deltaTime) (newY P deltaTime)
                       (moveDir P) (speed P))
   | Ok false => Ok P
   | TypeError => TypeError
   end, T').

End Player.

(** ** The key handlers of [Game.bindKeys], acting on [player.moveDir] *)

Module Keys.

(** The [keydown] listener, lines 352-357 (and 615-620). *)
Definition keydown (key : string) (d : Q * Q) : Q * Q :=
  let d := if bool_decide (key = "w") then (d.1, (-1)%Q) else d in
  let d := if bool_decide (key = "s") then (d.1, 1%Q) else d in
  let d := if bool_decide (key = "a") then ((-1)%Q, d.2) else d in
  let d := if bool_decide (key = "d") then (1%Q, d.2) else d in
  d.

(** The [keyup] listener of the first variant, lines 359-368: a key stops
    the motion only if the motion is the one it started. *)
Definition keyup (key : string) (d : Q * Q) : Q * Q :=
  let d := if bool_decide (key = "w") && Qeq_bool d.2 (-1) then (d.1, 0%Q) else d in
  let d := if bool_decide (key = "s") && Qeq_bool d.2 1 then (d.1, 0%Q) else d in
  let d := if bool_decide (key = "a") && Qeq_bool d.1 (-1) then (0%Q, d.2) else d in
  let d := if bool_decide (key = "d") && Qeq_bool d.1 1 then (0%Q, d.2) else d in
  d.

(** The [keyup] listener of the second variant, lines 621-624. *)
Definition keyup_v2 (key : string) (d : Q * Q) : Q * Q :=
  let d := if bool_decide (key = "w") || bool_decide (key = "s")
           then (d.1, 0%Q) else d in
  let d := if bool_decide (key = "a") || bool_decide (key = "d")
           then (0%Q, d.2) else d in
  d.

End Keys.

(** What can happen to the player and the terrain between two moments of
    a game: a key goes down or up, the loop updates the player, or
    something else uses the terrain (the monster's walkability query, the
    frame's [draw]). *)
Inductive Input : Type :=
  | KeyDown (key : string)
  | KeyUp (key : string)
  | Update (deltaTime : Q)
  | Other (o : Op).

Definition setMoveDir (P : Player.t) (d : Q * Q) : Player.t :=
  Player.mk (Player.x P) (Player.y P) d (Player.speed P).

Definition input_step (s : Player.t * Terrain.t) (i : Input)
    : result (Player.t * Terrain.t) :=
  match i with
  | KeyDown key => Ok (setMoveDir s.1 (Keys.keydown key (Player.moveDir s.1)), s.2)
  | KeyUp key => Ok (setMoveDir s.1 (Keys.keyup key (Player.moveDir s.1)), s.2)
  | Update deltaTime =>
      match Player.update s.1 deltaTime s.2 with
      | (Ok P', T') => Ok (P', T')
      | (TypeError, _) => TypeError
      end
  | Other o =>
      match o with
      | OpGetValue x y =>
          match Terrain.getValue s.2 x y with
          | (Ok _, T') => Ok (s.1, T')
          | (TypeError, _) => TypeError
          end
      | OpIsPositionWalkable x y =>
          match Terrain.isPositionWalkable s.2 x y with
          | (Ok _, T') => Ok (s.1, T')
          | (TypeError, _) => TypeError
          end
      | OpGetColor _ => Ok s
      | OpDraw cameraX cameraY => Ok (s.1, (Terrain.draw s.2 cameraX cameraY).2)
      end
  end.

(** A run of inputs; an exception ends it. *)
Fixpoint play (s : Player.t * Terrain.t) (inputs : list Input)
    : result (Player.t * Terrain.t) :=
  match inputs with
  | [] => Ok s
  | i :: inputs =>
      match input_step s i with
      | Ok s' => play s' inputs
      | TypeError => TypeError
      end
  end.

(** A direction component that the key handlers can produce. *)
Definition unit_step (c : Q) : Prop := c = (-1)%Q ∨ c = 0%Q ∨ c = 1%Q.

(** The tile under a point is walkable on the height map of [noise]. *)
Definition walkable_tile (noise : Q → Q → Q) (x y : Q) : Prop :=
  (43 # 100 <= norm (Chunk.tileValue noise (JS.floor x) (JS.floor y)))%Q.

(** * Painting *)

(** The canvas is modelled by what is painted on it: the rectangles that
    [ctx.fillRect] has filled, in order, each with the [ctx.fillStyle] in
    force.  [canvasWidth] and [canvasHeight] are [canvas.width] and
    [canvas.height]. *)
Module Canvas.

Record Rect : Type := mkRect {
  fill : string;
  left : Q;
  top : Q;
  width : Q;
  height : Q
}.

End Canvas.

(** [getColor] applied to a cell that may be missing: for [undefined] the
    norm is NaN, every comparison fails and the last colour is returned. *)
Definition getColorCell (cell : option Q) : string :=
  match cell with
  | Some value => Terrain.getColor value
  | None => "#ffffff"
  end.

Module Painting.

(** The body of the inner loop of [Chunk.draw], lines 115-121, for the row
    [row = this.tiles[y]]. *)
Definition cellRect (c : Chunk.t) (cameraX cameraY canvasWidth canvasHeight : Q)
    (getColor : option Q → string) (row : list Q) (y x : nat) : Canvas.Rect :=
  let worldX := Chunk.chunkX c * Chunk.size c in
  let worldY := Chunk.chunkY c * Chunk.size c in
  Canvas.mkRect
    (getColor (row !! x))
    ((inject_Z (worldX + Z.of_nat x) - cameraX) * inject_Z (Chunk.tileSize c)
     + canvasWidth / 2)%Q
    ((inject_Z (worldY + Z.of_nat y) - cameraY) * inject_Z (Chunk.tileSize c)
     + canvasHeight / 2)%Q
    (inject_Z (Chunk.tileSize c))
    (inject_Z (Chunk.tileSize c)).

(** The outer loop of [Chunk.draw] over the rows [ys] still to paint: a
    missing row raises when its first cell is read, after the rows before
    it have been painted. *)
Fixpoint Chunk_drawRows (c : Chunk.t)
    (cameraX cameraY canvasWidth canvasHeight : Q)
    (getColor : option Q → string) (ys : list nat)
    : list Canvas.Rect * result unit :=
  match ys with
  | [] => ([], Ok tt)
  | y :: ys =>
      match Chunk.tiles c !! y with
      | None => ([], TypeError)
      | Some row =>
          let painted :=
            map (cellRect c cameraX cameraY canvasWidth canvasHeight
                          getColor row y)
                (seq 0 (Z.to_nat (Chunk.size c))) in
          let '(rest, outcome) :=
            Chunk_drawRows c cameraX cameraY canvasWidth canvasHeight
                           getColor ys in
          (painted ++ rest, outcome)
      end
  end.

(** [Chunk.draw], lines 109-124. *)
Definition Chunk_draw (c : Chunk.t)
    (cameraX cameraY canvasWidth canvasHeight : Q)
    (getColor : option Q → string) : list Canvas.Rect * result unit :=
  Chunk_drawRows c cameraX cameraY canvasWidth canvasHeight getColor
                 (seq 0 (Z.to_nat (Chunk.size c))).

(** The double loop of [Terrain.draw], lines 182-189, with the painting
    that [Terrain.draw] above leaves out. *)
Fixpoint Terrain_drawLoop (T : Terrain.t)
    (cameraX cameraY canvasWidth canvasHeight : Q) (cs : list (Z * Z))
    : (list Canvas.Rect * result unit) * Terrain.t :=
  match cs with
  | [] => (([], Ok tt), T)
  | c :: cs =>
      let '(chunk, T') := Terrain.getChunk T c.1 c.2 in
      match chunk ≫= (λ l, Terrain.store T' !! l) with
      | None => (([], TypeError), T')
      | Some ch =>
          match Chunk_draw ch cameraX cameraY canvasWidth canvasHeight
                           getColorCell with
          | (painted, TypeError) => ((painted, TypeError), T')
          | (painted, Ok _) =>
              let '((rest, outcome), T'') :=
                Terrain_drawLoop T' cameraX cameraY canvasWidth canvasHeight
                                 cs in
              ((painted ++ rest, outcome), T'')
          end
      end
  end.

Definition Terrain_draw (T : Terrain.t)
    (cameraX cameraY canvasWidth canvasHeight : Q)
    : (list Canvas.Rect * result unit) * Terrain.t :=
  Terrain_drawLoop T cameraX cameraY canvasWidth canvasHeight
    (Terrain.window (Terrain.chunkCoord (Terrain.chunkSize T) cameraX)
                    (Terrain.chunkCoord (Terrain.chunkSize T) cameraY)).

(** [Player.draw], lines 246-257. *)
Definition Player_draw (P : Player.t)
    (cameraX cameraY canvasWidth canvasHeight : Q) : Canvas.Rect :=
  let screenX := ((Player.x P - cameraX) * TILE_SIZE + canvasWidth / 2)%Q in
  let screenY := ((Player.y P - cameraY) * TILE_SIZE + canvasHeight / 2)%Q in
  Canvas.mkRect "red" (screenX - TILE_SIZE / 2)%Q (screenY - TILE_SIZE / 2)%Q
                TILE_SIZE TILE_SIZE.

End Painting.

(** The square that a frame paints for the world tile [(worldX, worldY)]
    of the height map of [noise]. *)
Definition tileRect (noise : Q → Q → Q) (tileSize : Z)
    (cameraX cameraY canvasWidth canvasHeight : Q) (worldX worldY : Z)
    : Canvas.Rect :=
  Canvas.mkRect
    (Terrain.getColor (Chunk.tileValue noise worldX worldY))
    ((inject_Z worldX - cameraX) * inject_Z tileSize + canvasWidth / 2)%Q
    ((inject_Z worldY - cameraY) * inject_Z tileSize + canvasHeight / 2)%Q
    (inject_Z tileSize) (inject_Z tileSize).

(** The squares of the cells of the chunk [(chunkX, chunkY)] of edge
    [size], row by row. *)
Definition chunkRects (noise : Q → Q → Q) (tileSize : Z)
    (cameraX cameraY canvasWidth canvasHeight : Q) (size : Z)
    (c : Z * Z) : list Canvas.Rect :=
  y ← seq 0 (Z.to_nat size);
  x ← seq 0 (Z.to_nat size);
  [tileRect noise tileSize cameraX cameraY canvasWidth canvasHeight
            (Chunk.worldCoord c.1 size (Z.of_nat x))
            (Chunk.worldCoord c.2 size (Z.of_nat y))].

(** A terrain of chunk size 16 in a coherent state, over the noise [N]. *)
Definition game_terrain (N : Q → Q → Q) (T : Terrain.t) : Prop :=
  coherent T ∧ Terrain.chunkSize T = 16 ∧ Terrain.noise T = N.

(** * Properties *)

(** ** Comparisons and integer primitives *)

Lemma ltb_true (a b : Q) : JS.ltb a b = true ↔ (a < b)%Q.
Proof.
  unfold JS.ltb. rewrite negb_true_iff. split.
  - intros H. apply Qnot_le_lt. intros Hle.
    apply Qle_bool_iff in Hle. congruence.
  - intros H. destruct (Qle_bool b a) eqn:E; [|done].
    apply Qle_bool_iff in E. apply Qlt_not_le in H. done.
Qed.

Lemma ltb_false (a b : Q) : JS.ltb a b = false ↔ (b <= a)%Q.
Proof.
  unfold JS.ltb. rewrite negb_false_iff. apply Qle_bool_iff.
Qed.

Lemma geb_true (a b : Q) : JS.geb a b = true ↔ (b <= a)%Q.
Proof. apply Qle_bool_iff. Qed.

(** Case analysis on every [JS.ltb] test of the goal, each case carrying
    the corresponding inequality. *)
Ltac case_ltb :=
  repeat match goal with
  | |- context [JS.ltb ?a ?b] =>
      let E := fresh "E" in
      destruct (JS.ltb a b) eqn:E;
      [apply ltb_true in E | apply ltb_false in E]
  end.

Lemma ToInt32_range (n : Z) : - 2 ^ 31 <= JS.ToInt32 n < 2 ^ 31.
Proof. unfold JS.ToInt32. pose proof (Z.mod_pos_bound (n + 2 ^ 31) (2 ^ 32)). lia. Qed.

Lemma ToInt32_small (n : Z) : - 2 ^ 31 <= n < 2 ^ 31 → JS.ToInt32 n = n.
Proof. intros H. unfold JS.ToInt32. rewrite Z.mod_small; lia. Qed.

(** A mask by [2^k - 1] below the sign bit is the residue modulo [2^k]. *)
Lemma band_255 (n : Z) : JS.band n 255 = n mod 256.
Proof.
  unfold JS.band. rewrite (ToInt32_small 255) by lia.
  change 255 with (Z.ones 8). rewrite Z.land_ones by lia.
  unfold JS.ToInt32. change (2 ^ 8) with 256.
  rewrite <- Zminus_mod_idemp_l.
  rewrite Z.mod_mod_divide by (exists (2 ^ 24); lia).
  rewrite Zminus_mod_idemp_l.
  replace (n + 2 ^ 31 - 2 ^ 31) with n by lia. done.
Qed.

Lemma band_255_range (n : Z) : 0 <= JS.band n 255 < 256.
Proof. rewrite band_255. apply Z.mod_pos_bound. lia. Qed.

Lemma index_Some {A} (arr : list A) (i : Z) :
  0 <= i < Z.of_nat (length arr) → is_Some (JS.index arr i).
Proof.
  intros [H0 H1]. unfold JS.index.
  destruct (Z.ltb_spec i 0); [lia|].
  apply lookup_lt_is_Some. lia.
Qed.

Lemma index_None {A} (arr : list A) (i : Z) :
  i < 0 ∨ Z.of_nat (length arr) <= i → JS.index arr i = None.
Proof.
  intros H. unfold JS.index.
  destruct (Z.ltb_spec i 0); [done|].
  apply lookup_ge_None. lia.
Qed.

Lemma index_of_nat {A} (arr : list A) (i : nat) :
  JS.index arr (Z.of_nat i) = arr !! i.
Proof.
  unfold JS.index. destruct (Z.ltb_spec (Z.of_nat i) 0); [lia|].
  by rewrite Nat2Z.id.
Qed.

(** ** The noise table *)

Section NoiseTable.

Variable rnd : nat → Q.

Lemma new_length : length (ImprovedNoise.new rnd) = 512%nat.
Proof.
  unfold ImprovedNoise.new. rewrite length_app, length_map, length_seq. done.
Qed.

Lemma new_first_half :
  take 256 (ImprovedNoise.new rnd) = map (ImprovedNoise.entry rnd) (seq 0 256).
Proof.
  unfold ImprovedNoise.new. apply take_app_length'.
  by rewrite length_map, length_seq.
Qed.

Lemma new_lookup_low (i : nat) :
  (i < 256)%nat →
  ImprovedNoise.new rnd !! i = Some (ImprovedNoise.entry rnd i).
Proof.
  intros Hi. unfold ImprovedNoise.new.
  rewrite lookup_app_l by (rewrite length_map, length_seq; lia).
  rewrite list_lookup_fmap, lookup_seq_lt by lia. done.
Qed.

Lemma new_lookup_high (i : nat) :
  (i < 256)%nat →
  ImprovedNoise.new rnd !! (256 + i)%nat = Some (ImprovedNoise.entry rnd i).
Proof.
  intros Hi. unfold ImprovedNoise.new.
  rewrite lookup_app_r by (rewrite length_map, length_seq; lia).
  rewrite length_map, length_seq.
  replace (256 + i - 256)%nat with i by lia.
  rewrite list_lookup_fmap, lookup_seq_lt by lia. done.
Qed.

Hypothesis rnd_range : ImprovedNoise.random_source rnd.

Lemma entry_range (i : nat) : 0 <= ImprovedNoise.entry rnd i < 256.
Proof.
  destruct (rnd_range i) as [Hlo Hhi].
  unfold ImprovedNoise.entry, JS.floor. split.
  - change 0 with (Qfloor 0). apply Qfloor_resp_le.
    apply Qmult_le_0_compat; [done | lra].
  - rewrite Zlt_Qlt. eapply Qle_lt_trans; [apply Qfloor_le|].
    change (inject_Z 256) with (256 # 1)%Q. lra.
Qed.

Lemma new_entry_range (i : Z) :
  0 <= i < 512 →
  ∃ v, JS.index (ImprovedNoise.new rnd) i = Some v ∧ 0 <= v < 256.
Proof.
  intros Hi. unfold JS.index. destruct (Z.ltb_spec i 0); [lia|].
  destruct (decide (Z.to_nat i < 256)%nat) as [Hlt|Hge].
  - exists (ImprovedNoise.entry rnd (Z.to_nat i)).
    split; [by apply new_lookup_low | apply entry_range].
  - exists (ImprovedNoise.entry rnd (Z.to_nat i - 256)).
    split; [| apply entry_range].
    replace (Z.to_nat i) with (256 + (Z.to_nat i - 256))%nat at 1 by lia.
    apply new_lookup_high. lia.
Qed.

Lemma new_elem_range (v : Z) : v ∈ ImprovedNoise.new rnd → 0 <= v < 256.
Proof.
  intros [i Hi]%list_elem_of_lookup.
  pose proof (lookup_lt_Some _ _ _ Hi) as Hlt. rewrite new_length in Hlt.
  destruct (new_entry_range (Z.of_nat i)) as (w & Hw & Hrange); [lia|].
  rewrite index_of_nat in Hw. congruence.
Qed.

End NoiseTable.

(** ** Gradient noise at lattice points *)

Lemma grad_origin (hash : option Z) (x y : Q) :
  (x == 0)%Q → (y == 0)%Q → (ImprovedNoise.grad hash x y == 0)%Q.
Proof.
  intros Hx Hy. unfold ImprovedNoise.grad.
  repeat match goal with |- context [if ?b then _ else _] => destruct b end;
    lra.
Qed.

Lemma fade_zero (t : Q) : (t == 0)%Q → (ImprovedNoise.fade t == 0)%Q.
Proof. intros Ht. unfold ImprovedNoise.fade. rewrite Ht. ring. Qed.

Lemma lerp_at_zero (t a b : Q) : (t == 0)%Q → (lerp t a b == a)%Q.
Proof. intros Ht. unfold lerp. rewrite Ht. ring. Qed.

Lemma frac_integer (n : Z) : (ImprovedNoise.frac (inject_Z n) == 0)%Q.
Proof. unfold ImprovedNoise.frac, JS.floor. rewrite Qfloor_Z. ring. Qed.

(** The three other corners of a lattice point do not have a zero gradient
    term; they enter the blend with weight [fade 0 = 0]. *)
Example grad_far_corner :
  (ImprovedNoise.grad (Some 0%Z) (0 - 1) 0 == -1)%Q.
Proof. vm_compute. done. Qed.

(** C6.  At every integer lattice point [(m, n)] the noise is exactly 0,
    whatever the table holds (entries of any value, any length): both
    fractional parts are 0, [grad(hash, 0, 0)] is 0 for every hash, also
    for [undefined], and both fade weights are 0, so the blend reduces to
    the gradient term of the corner itself. *)
Theorem noise_lattice_zero (p : list Z) (m n : Z) :
  (ImprovedNoise.noise p (inject_Z m) (inject_Z n) == 0)%Q
  ∧ (ImprovedNoise.frac (inject_Z m) == 0)%Q
  ∧ (ImprovedNoise.frac (inject_Z n) == 0)%Q
  ∧ (∀ hash : option Z, (ImprovedNoise.grad hash 0 0 == 0)%Q).
Proof.
  split; [| split; [apply frac_integer | split; [apply frac_integer |]]].
  - unfold ImprovedNoise.noise. cbv zeta.
    rewrite lerp_at_zero by apply fade_zero, frac_integer.
    rewrite lerp_at_zero by apply fade_zero, frac_integer.
    apply grad_origin; apply frac_integer.
  - intros hash. by apply grad_origin.
Qed.

(** ** Table indices of [noise] *)

Lemma hits_sum (p : list Z) (rnd : nat → Q) (i c d : Z) :
  ImprovedNoise.random_source rnd →
  p = ImprovedNoise.new rnd →
  0 <= i < 512 → 0 <= c < 256 → 0 <= d <= 1 →
  hits p (JS.add_opt (JS.add_opt (JS.index p i) c) d).
Proof.
  intros Hrnd -> Hi Hc Hd.
  destruct (new_entry_range rnd Hrnd i Hi) as (v & Hv & Hrange).
  rewrite Hv. simpl. exists (v + c + d). split; [done|]. split; [lia|].
  apply index_Some. rewrite new_length. lia.
Qed.

(** C10.  With the table that the constructor builds from any results of
    [Math.random], every index that [noise] uses, for every [(x, y)], is a
    number in [0, 512) and names an element of the table: X, X+1,
    A = p[X]+Y, A+1, B = p[X+1]+Y and B+1. *)
Theorem noise_indices_in_table (rnd : nat → Q) (x y : Q)
    (Hrnd : ImprovedNoise.random_source rnd) :
  0 <= ImprovedNoise.cell x < 256
  ∧ 0 <= ImprovedNoise.cell y < 256
  ∧ (∀ v, v ∈ ImprovedNoise.new rnd → 0 <= v < 256)
  ∧ length (ImprovedNoise.new rnd) = 512%nat
  ∧ hits (ImprovedNoise.new rnd) (Some (ImprovedNoise.cell x))
  ∧ hits (ImprovedNoise.new rnd) (Some (ImprovedNoise.cell x + 1))
  ∧ hits (ImprovedNoise.new rnd) (ImprovedNoise.hashA (ImprovedNoise.new rnd) x y)
  ∧ hits (ImprovedNoise.new rnd)
         (JS.add_opt (ImprovedNoise.hashA (ImprovedNoise.new rnd) x y) 1)
  ∧ hits (ImprovedNoise.new rnd) (ImprovedNoise.hashB (ImprovedNoise.new rnd) x y)
  ∧ hits (ImprovedNoise.new rnd)
         (JS.add_opt (ImprovedNoise.hashB (ImprovedNoise.new rnd) x y) 1).
Proof.
  pose proof (band_255_range (JS.floor x)) as HX.
  pose proof (band_255_range (JS.floor y)) as HY.
  fold (ImprovedNoise.cell x) in HX. fold (ImprovedNoise.cell y) in HY.
  assert (∀ k, 0 <= k < 512 → hits (ImprovedNoise.new rnd) (Some k)) as Hk.
  { intros k Hk. exists k. split; [done|]. split; [done|].
    apply index_Some. rewrite new_length. lia. }
  assert (∀ i c, 0 <= i < 512 → 0 <= c < 256 →
            hits (ImprovedNoise.new rnd)
                 (JS.add_opt (JS.index (ImprovedNoise.new rnd) i) c)) as H0.
  { intros i c Hi Hc.
    destruct (new_entry_range rnd Hrnd i Hi) as (v & Hv & Hrange).
    rewrite Hv. simpl. apply Hk. lia. }
  split; [done|]. split; [done|].
  split; [intros v Hv; by eapply new_elem_range|].
  split; [apply new_length|].
  split; [apply Hk; lia|]. split; [apply Hk; lia|].
  split; [apply H0; lia|].
  split; [eapply hits_sum; [done | done | | done |]; lia|].
  split; [apply H0; lia|].
  eapply hits_sum; [done | done | | done |]; lia.
Qed.

Lemma rnd_zero_source : ImprovedNoise.random_source rnd_zero.
Proof. intros i. unfold rnd_zero. split; lra. Defined.

Lemma noise_indices_in_table_witness :
  ImprovedNoise.random_source rnd_zero
  ∧ hits (ImprovedNoise.new rnd_zero)
         (JS.add_opt (ImprovedNoise.hashB (ImprovedNoise.new rnd_zero) (1 # 2) (1 # 2)) 1).
Proof.
  split; [exact rnd_zero_source|].
  apply (noise_indices_in_table rnd_zero (1 # 2) (1 # 2) rnd_zero_source).
Defined.

(** ** Fractal sum *)

Section Fbm.

Variable noise : Q → Q → Q.
Variables x y lacunarity gain : Q.

Lemma scaled_sample_bound (s amplitude : Q) :
  in_unit s → (0 <= amplitude)%Q →
  (- amplitude <= s * amplitude)%Q ∧ (s * amplitude <= amplitude)%Q.
Proof.
  intros [Hlo Hhi] Ha. split.
  - assert (0 <= (s + 1) * amplitude)%Q by (apply Qmult_le_0_compat; lra).
    lra.
  - assert (0 <= (1 - s) * amplitude)%Q by (apply Qmult_le_0_compat; lra).
    lra.
Qed.

(** The loop keeps [|value| <= maxValue] and a non-negative amplitude, and
    [maxValue] grows by the amplitudes added. *)
Lemma fbm_loop_bound (n : nat) :
  (0 <= gain)%Q →
  ∀ value amplitude frequency maxValue : Q,
    (0 <= amplitude)%Q →
    (- maxValue <= value)%Q → (value <= maxValue)%Q →
    Forall in_unit (fbm_samples n noise x y lacunarity frequency) →
    let r := fbm_loop n noise x y lacunarity gain
               value amplitude frequency maxValue in
    (- r.2 <= r.1)%Q ∧ (r.1 <= r.2)%Q ∧ (maxValue <= r.2)%Q
    ∧ ((0 < n)%nat → (maxValue + amplitude <= r.2)%Q).
Proof.
  intros Hgain. induction n as [|n IH]; intros value amplitude frequency maxValue Ha Hlo Hhi Hs.
  - simpl. repeat split; try lra. lia.
  - simpl in *. apply Forall_cons in Hs as [Hs0 Hs].
    destruct (scaled_sample_bound _ amplitude Hs0 Ha) as [Hl Hu].
    specialize (IH (value + noise (x * frequency) (y * frequency) * amplitude)%Q
                   (amplitude * gain)%Q (frequency * lacunarity)%Q
                   (maxValue + amplitude)%Q).
    destruct IH as (H1 & H2 & H3 & _).
    + by apply Qmult_le_0_compat.
    + lra.
    + lra.
    + done.
    + repeat split; try done; lra.
Qed.

Lemma div_Some (a b : Q) : (0 < b)%Q → JS.div a b = Some (a / b)%Q.
Proof.
  intros Hb. unfold JS.div. destruct (Qeq_bool b 0) eqn:E; [|done].
  apply Qeq_bool_eq in E. lra.
Qed.

Lemma fbm_bounded (octaves : Z) :
  1 <= octaves → (0 <= gain)%Q →
  Forall in_unit (fbm_samples (Z.to_nat octaves) noise x y lacunarity 1) →
  ∃ r, fbm x y noise octaves lacunarity gain = Some r ∧ in_unit r.
Proof.
  intros Hoct Hgain Hs. unfold fbm.
  pose proof (fbm_loop_bound (Z.to_nat octaves) Hgain 0 1 1 0) as Hb.
  destruct (fbm_loop (Z.to_nat octaves) noise x y lacunarity gain 0 1 1 0)
    as [value maxValue].
  simpl in Hb. destruct Hb as (H1 & H2 & H3 & H4); [lra | lra | lra | done |].
  assert (1 <= maxValue)%Q as Hm by (specialize (H4 ltac:(lia)); lra).
  exists (value / maxValue)%Q. split; [apply div_Some; lra|].
  split.
  - apply Qle_shift_div_l; lra.
  - apply Qle_shift_div_r; lra.
Qed.

End Fbm.

Lemma Qsum_ext (f g : nat → Q) (n : nat) :
  (∀ i, (i < n)%nat → (f i == g i)%Q) → (Qsum f n == Qsum g n)%Q.
Proof.
  induction n as [|n IH]; intros H; simpl; [reflexivity|].
  rewrite IH by (intros; apply H; lia). rewrite (H n) by lia. reflexivity.
Qed.

Lemma Qsum_shift (f : nat → Q) (n : nat) :
  (Qsum f (S n) == f O + Qsum (λ i, f (S i)) n)%Q.
Proof.
  induction n as [|n IH]; simpl in *; [ring|]. rewrite IH. ring.
Qed.

Lemma frequency_after_pow (i : nat) (lacunarity frequency : Q) :
  (frequency_after i lacunarity frequency == frequency * Qpow lacunarity i)%Q.
Proof.
  revert frequency. induction i as [|i IH]; intros frequency; simpl; [ring|].
  rewrite IH. ring.
Qed.

(** The accumulators at loop exit, as sums over the octaves. *)
Lemma fbm_loop_sums (noise : Q → Q → Q) (x y lacunarity gain : Q) (n : nat) :
  ∀ value amplitude frequency maxValue : Q,
    let r := fbm_loop n noise x y lacunarity gain
               value amplitude frequency maxValue in
    (r.1 == value +
       Qsum (λ i, noise (x * frequency_after i lacunarity frequency)
                        (y * frequency_after i lacunarity frequency)
                  * (amplitude * Qpow gain i)) n)%Q
    ∧ (r.2 == maxValue + Qsum (λ i, amplitude * Qpow gain i) n)%Q.
Proof.
  induction n as [|n IH]; intros value amplitude frequency maxValue.
  - simpl. split; ring.
  - cbv zeta. rewrite !Qsum_shift.
    change (fbm_loop (S n) noise x y lacunarity gain value amplitude frequency maxValue)
      with (fbm_loop n noise x y lacunarity gain
              (value + noise (x * frequency) (y * frequency) * amplitude)%Q
              (amplitude * gain)%Q (frequency * lacunarity)%Q
              (maxValue + amplitude)%Q).
    destruct (IH (value + noise (x * frequency) (y * frequency) * amplitude)%Q
                 (amplitude * gain)%Q (frequency * lacunarity)%Q
                 (maxValue + amplitude)%Q) as [Hv Hm].
    split.
    + rewrite Hv. simpl.
      rewrite (Qsum_ext _ (λ i, noise (x * frequency_after i lacunarity (frequency * lacunarity))
                                 (y * frequency_after i lacunarity (frequency * lacunarity))
                           * (amplitude * (gain * Qpow gain i)))%Q).
      * ring.
      * intros i _. ring.
    + rewrite Hm. simpl.
      rewrite (Qsum_ext _ (λ i, amplitude * (gain * Qpow gain i))%Q).
      * ring.
      * intros i _. ring.
Qed.

Lemma fbm_loop_divisor_chunk (noise : Q → Q → Q) (x y value : Q) :
  (1 <= (fbm_loop 8 noise x y (21 # 10) (45 # 100) value 1 1 0).2)%Q.
Proof.
  destruct (fbm_loop_sums noise x y (21 # 10) (45 # 100) 8 value 1 1 0)
    as [_ Hm].
  rewrite Hm. vm_compute. discriminate.
Qed.

(** The call of [generateTiles] always has a finite result. *)
Lemma fbm_chunk_defined (noise : Q → Q → Q) (x y : Q) :
  is_Some (fbm x y noise 8 (21 # 10) (45 # 100)).
Proof.
  unfold fbm. change (Z.to_nat 8) with 8%nat.
  pose proof (fbm_loop_divisor_chunk noise x y 0) as H.
  destruct (fbm_loop 8 noise x y (21 # 10) (45 # 100) 0 1 1 0)
    as [value maxValue].
  simpl in H. rewrite div_Some by lra. by eexists.
Qed.

(** C7 (amended).  For every octave count >= 1, every lacunarity, every
    gain >= 0 and every input, if each noise sample that the loop takes lies
    in [-1, 1] then [fbm] returns a number in [-1, 1]; that number is the
    sum over the octaves [i] of the sample at frequency [lacunarity^i]
    times [gain^i], divided by the sum of the amplitudes [gain^i] (octave 0
    at amplitude 1 and frequency 1). *)
Theorem fbm_normalized (noise : Q → Q → Q) (x y lacunarity gain : Q)
    (octaves : Z)
    (Hoct : 1 <= octaves) (Hgain : (0 <= gain)%Q)
    (Hs : Forall in_unit
            (fbm_samples (Z.to_nat octaves) noise x y lacunarity 1)) :
  ∃ r, fbm x y noise octaves lacunarity gain = Some r
       ∧ in_unit r
       ∧ (r == Qsum (λ i, noise (x * frequency_after i lacunarity 1)
                                (y * frequency_after i lacunarity 1)
                          * Qpow gain i) (Z.to_nat octaves)
               / Qsum (λ i, Qpow gain i) (Z.to_nat octaves))%Q
       ∧ (∀ i, frequency_after i lacunarity 1 == Qpow lacunarity i)%Q.
Proof.
  destruct (fbm_bounded noise x y lacunarity gain octaves Hoct Hgain Hs)
    as (r & Hr & Hunit).
  exists r. split; [done|]. split; [done|]. split.
  - unfold fbm in Hr.
    destruct (fbm_loop_sums noise x y lacunarity gain (Z.to_nat octaves) 0 1 1 0)
      as [Hv Hm].
    destruct (fbm_loop (Z.to_nat octaves) noise x y lacunarity gain 0 1 1 0)
      as [value maxValue].
    simpl in Hv, Hm. unfold JS.div in Hr.
    destruct (Qeq_bool maxValue 0); [done|]. injection Hr as <-.
    rewrite Hv, Hm.
    rewrite (Qsum_ext _ (λ i, noise (x * frequency_after i lacunarity 1)
                                (y * frequency_after i lacunarity 1)
                          * Qpow gain i)%Q) by (intros; ring).
    rewrite (Qsum_ext (λ i, 1 * Qpow gain i)%Q (λ i, Qpow gain i))
      by (intros; ring).
    rewrite !Qplus_0_l. reflexivity.
  - intros i. rewrite frequency_after_pow. ring.
Qed.

Lemma fbm_normalized_witness :
  ∃ r, fbm 0 0 spike 1 2 (1 # 2) = Some r ∧ in_unit r.
Proof.
  assert (1 <= 1) as H1 by lia.
  assert (0 <= 1 # 2)%Q as H2 by lra.
  assert (Forall in_unit (fbm_samples (Z.to_nat 1) spike 0 0 2 1)) as H3.
  { simpl. repeat constructor; vm_compute; discriminate. }
  destruct (fbm_normalized spike 0 0 2 (1 # 2) 1 H1 H2 H3) as (r & Hr & Hu & _).
  exists r. split; assumption.
Defined.

(** With a negative gain the amplitudes partly cancel in the divisor but
    not in the sum: on the table 0, 1, ..., 255 the two samples at
    (1/2, 1/2) and (1, 1) are 1/4 and 0, and [fbm] with gain -9/10 returns
    5/2. *)
Lemma fbm_negative_gain_out_of_range :
  1 <= 2
  ∧ ImprovedNoise.random_source rnd_ramp
  ∧ Forall in_unit
      (fbm_samples 2 (ImprovedNoise.noise (ImprovedNoise.new rnd_ramp))
                   (1 # 2) (1 # 2) 2 1)
  ∧ ∃ r, fbm (1 # 2) (1 # 2) (ImprovedNoise.noise (ImprovedNoise.new rnd_ramp))
             2 2 (- (9 # 10)) = Some r
         ∧ (r == 5 # 2)%Q ∧ ¬ in_unit r.
Proof.
  split; [lia|]. split.
  { intros i. unfold rnd_ramp.
    pose proof (Z.mod_pos_bound (Z.of_nat i) 256 ltac:(lia)) as Hb.
    unfold Qle, Qlt. simpl. lia. }
  split.
  { simpl. repeat constructor; vm_compute; discriminate. }
  eexists. split; [vm_compute; reflexivity|].
  split; [vm_compute; reflexivity|].
  intros [_ H]. vm_compute in H. apply H. reflexivity.
Qed.

(** The same failure with a sampler that is within [-1, 1] everywhere. *)
Example fbm_negative_gain_spike :
  (∀ a b, in_unit (spike a b))
  ∧ ∃ r, fbm (1 # 2) (1 # 2) spike 2 2 (- (1 # 2)) = Some r ∧ (r == 3)%Q.
Proof.
  split.
  - intros a b. unfold spike, in_unit. destruct (Qle_bool a (1 # 2)); split; lra.
  - eexists. split; [vm_compute; reflexivity|]. vm_compute. reflexivity.
Qed.

(** ** Classification *)

Lemma fillStyle_inj (c d : TerrainClass) : fillStyle c = fillStyle d → c = d.
Proof. destruct c, d; simpl; intros H; try done; discriminate H. Qed.

Lemma norm_mono (v w : Q) : (v <= w)%Q → (norm v <= norm w)%Q.
Proof.
  intros H. unfold norm.
  apply Qle_shift_div_l; [lra|].
  assert ((v + 1) / 2 * 2 == v + 1)%Q as -> by field. lra.
Qed.

Lemma classify_intervals (v : Q) : step_table Terrain.classify (75 # 100) v.
Proof.
  unfold step_table, Terrain.classify. case_ltb;
    repeat split; intros; try done; try lra.
Qed.

Lemma classify_intervals_v2 (v : Q) :
  step_table TerrainV2.classify (95 # 100) v.
Proof.
  unfold step_table, TerrainV2.classify. case_ltb;
    repeat split; intros; try done; try lra.
Qed.

Lemma classify_mono (v w : Q) :
  (v <= w)%Q → (rank (Terrain.classify v) <= rank (Terrain.classify w))%nat.
Proof.
  intros H%norm_mono. unfold Terrain.classify.
  case_ltb; simpl; try lia; exfalso; lra.
Qed.

Lemma classify_mono_v2 (v w : Q) :
  (v <= w)%Q → (rank (TerrainV2.classify v) <= rank (TerrainV2.classify w))%nat.
Proof.
  intros H%norm_mono. unfold TerrainV2.classify.
  case_ltb; simpl; try lia; exfalso; lra.
Qed.

(** C8.  [getColor] is a non-decreasing step function of the height: with
    [norm = (value + 1) / 2] it yields Water below 0.43, Sand on
    [0.43, 0.45), Grass on [0.45, 0.48), Dirt on [0.48, 0.65), Rock on
    [0.65, 0.75) in the first variant and on [0.65, 0.95) in the second,
    and Snow from there on; a height whose norm is exactly 0.43 is Sand. *)
Theorem classify_step_function (v w : Q) (Hvw : (v <= w)%Q) :
  step_table Terrain.classify (75 # 100) v
  ∧ step_table TerrainV2.classify (95 # 100) v
  ∧ (rank (Terrain.classify v) <= rank (Terrain.classify w))%nat
  ∧ (rank (TerrainV2.classify v) <= rank (TerrainV2.classify w))%nat
  ∧ ((norm v == 43 # 100)%Q →
     Terrain.getColor v = fillStyle Sand ∧ TerrainV2.getColor v = fillStyle Sand)
  ∧ (∀ c, Terrain.getColor v = fillStyle c ↔ Terrain.classify v = c)
  ∧ (∀ c, TerrainV2.getColor v = fillStyle c ↔ TerrainV2.classify v = c).
Proof.
  split; [apply classify_intervals|].
  split; [apply classify_intervals_v2|].
  split; [by apply classify_mono|].
  split; [by apply classify_mono_v2|].
  split.
  - intros H. unfold Terrain.getColor, TerrainV2.getColor.
    destruct (classify_intervals v) as (_ & [_ H1] & _).
    destruct (classify_intervals_v2 v) as (_ & [_ H2] & _).
    rewrite H1, H2 by (split; lra). done.
  - split; intros c; (split; [apply fillStyle_inj | by intros <-]).
Qed.

Lemma classify_step_function_witness :
  (norm (- (14 # 100)) == 43 # 100)%Q
  ∧ Terrain.getColor (- (14 # 100)) = "#e2ca76"
  ∧ (rank (Terrain.classify (- (14 # 100))) <= rank (Terrain.classify 1))%nat.
Proof.
  assert (- (14 # 100) <= 1)%Q as H by lra.
  destruct (classify_step_function (- (14 # 100)) 1 H)
    as (_ & _ & Hmono & _ & Hsand & _).
  assert (norm (- (14 # 100)) == 43 # 100)%Q as Hn by reflexivity.
  split; [exact Hn|]. split; [exact (proj1 (Hsand Hn)) | exact Hmono].
Defined.

(** ** Cache keys *)

Lemma no_comma_digits (x : N) (s : string) :
  no_comma s → no_comma (pretty_N_go x s).
Proof.
  revert s. induction (N.lt_wf_0 x) as [x _ IH]; intros s Hs.
  destruct (decide (x = 0%N)) as [->|Hx].
  - by rewrite pretty_N_go_0.
  - rewrite pretty_N_go_step by lia. apply IH.
    + apply N.div_lt; lia.
    + split; [|done]. unfold pretty_N_char. by repeat case_match.
Qed.

Lemma no_comma_pretty_Z (z : Z) : no_comma (pretty z).
Proof.
  destruct z as [|p|p]; unfold pretty, pretty_Z.
  - simpl. done.
  - unfold pretty, pretty_positive, pretty, pretty_N.
    case_decide; [done|]. by apply no_comma_digits.
  - split; [done|]. unfold pretty, pretty_positive, pretty, pretty_N.
    case_decide; [done|]. by apply no_comma_digits.
Qed.

Lemma append_comma_inj (a a' b b' : string) :
  no_comma a → no_comma a' →
  a +:+ "," +:+ b = a' +:+ "," +:+ b' → a = a' ∧ b = b'.
Proof.
  revert a'. induction a as [|c a IH]; intros [|c' a'] Ha Ha' H; simpl in *.
  - by injection H.
  - injection H as Hc _. destruct Ha' as [Hne _]. by destruct Hne.
  - injection H as Hc _. destruct Ha as [Hne _]. by destruct Hne.
  - injection H as -> H. destruct Ha as [_ Ha], Ha' as [_ Ha'].
    destruct (IH a' Ha Ha' H) as [-> ->]. done.
Qed.

(** Distinct chunk pairs have distinct keys. *)
Lemma key_inj (cx cy cx' cy' : Z) :
  Terrain.key cx cy = Terrain.key cx' cy' → cx = cx' ∧ cy = cy'.
Proof.
  unfold Terrain.key. intros H.
  apply append_comma_inj in H as [Hx Hy]; try apply no_comma_pretty_Z.
  split; by apply (inj pretty).
Qed.

(** ** The chunk cache *)

Section Cache.

Implicit Types (T : Terrain.t) (cx cy : Z).

Lemma getChunk_hit T cx cy l :
  Terrain.chunks T !! Terrain.key cx cy = Some l →
  Terrain.getChunk T cx cy = (Some l, T).
Proof.
  intros H. unfold Terrain.getChunk. cbv zeta.
  rewrite bool_decide_eq_true_2 by (by rewrite H). by rewrite H.
Qed.

Lemma getChunk_miss T cx cy :
  Terrain.chunks T !! Terrain.key cx cy = None →
  Terrain.getChunk T cx cy
  = (Some (length (Terrain.store T)),
     Terrain.mk (Terrain.tileSize T) (Terrain.chunkSize T) (Terrain.noise T)
       (<[Terrain.key cx cy := length (Terrain.store T)]> (Terrain.chunks T))
       (Terrain.store T
          ++ [Chunk.new cx cy (Terrain.tileSize T) 16 (Terrain.noise T)])).
Proof.
  intros H. unfold Terrain.getChunk. cbv zeta.
  rewrite bool_decide_eq_false_2 by (rewrite H; by intros [? ?]).
  simpl. by rewrite lookup_insert_eq.
Qed.

(** The three cases of a call, for use in proofs. *)
Lemma getChunk_cases T cx cy :
  (∃ l, Terrain.chunks T !! Terrain.key cx cy = Some l
        ∧ Terrain.getChunk T cx cy = (Some l, T))
  ∨ (Terrain.chunks T !! Terrain.key cx cy = None
     ∧ Terrain.getChunk T cx cy
       = (Some (length (Terrain.store T)),
          Terrain.mk (Terrain.tileSize T) (Terrain.chunkSize T) (Terrain.noise T)
            (<[Terrain.key cx cy := length (Terrain.store T)]> (Terrain.chunks T))
            (Terrain.store T
               ++ [Chunk.new cx cy (Terrain.tileSize T) 16 (Terrain.noise T)]))).
Proof.
  destruct (Terrain.chunks T !! Terrain.key cx cy) as [l|] eqn:E.
  - left. exists l. split; [done|]. by apply getChunk_hit.
  - right. split; [done|]. by apply getChunk_miss.
Qed.

Lemma getChunk_fields T cx cy :
  Terrain.tileSize (Terrain.getChunk T cx cy).2 = Terrain.tileSize T
  ∧ Terrain.chunkSize (Terrain.getChunk T cx cy).2 = Terrain.chunkSize T
  ∧ Terrain.noise (Terrain.getChunk T cx cy).2 = Terrain.noise T.
Proof.
  destruct (getChunk_cases T cx cy) as [(l & _ & ->)|[_ ->]]; done.
Qed.

Lemma getChunk_grows T cx cy :
  Terrain.store T `prefix_of` Terrain.store (Terrain.getChunk T cx cy).2
  ∧ Terrain.chunks T ⊆ Terrain.chunks (Terrain.getChunk T cx cy).2.
Proof.
  destruct (getChunk_cases T cx cy) as [(l & _ & ->)|[Hnone ->]]; simpl.
  - done.
  - split; [by apply prefix_app_r | by apply insert_subseteq].
Qed.

Lemma coherent_new tileSize chunkSize noise :
  coherent (Terrain.new tileSize chunkSize noise)
  ∧ counted (Terrain.new tileSize chunkSize noise).
Proof.
  split; [split|].
  - intros k l H. simpl in H. by rewrite lookup_empty in H.
  - intros l c H. simpl in H. by rewrite lookup_nil in H.
  - intros cx cy. unfold ctor_runs. simpl. by rewrite lookup_empty.
Qed.

Lemma getChunk_coherent T cx cy :
  coherent T → coherent (Terrain.getChunk T cx cy).2.
Proof.
  intros [H1 H2].
  destruct (getChunk_cases T cx cy) as [(l & _ & ->)|[Hnone ->]]; [done|].
  split; simpl.
  - intros k l Hk. destruct (decide (k = Terrain.key cx cy)) as [->|Hne].
    + rewrite lookup_insert_eq in Hk. injection Hk as <-.
      exists cx, cy. split; [done|].
      by rewrite lookup_app_r, Nat.sub_diag by lia.
    + rewrite lookup_insert_ne in Hk by done.
      destruct (H1 k l Hk) as (cx' & cy' & -> & Hl).
      exists cx', cy'. split; [done|].
      rewrite lookup_app_l; [done|]. by eapply lookup_lt_Some.
  - intros l c Hl. apply lookup_app_Some in Hl as [Hl|[Hlen Hl]].
    + pose proof (H2 l c Hl) as Hk.
      rewrite lookup_insert_ne; [done|]. intros Heq.
      rewrite <- Heq in Hk. congruence.
    + apply list_lookup_singleton_Some in Hl as [Hz <-]. simpl.
      rewrite lookup_insert_eq. f_equal. lia.
Qed.

Lemma getChunk_counted T cx cy :
  counted T → counted (Terrain.getChunk T cx cy).2.
Proof.
  intros H.
  destruct (getChunk_cases T cx cy) as [(l & _ & ->)|[Hnone ->]]; [done|].
  intros cx' cy'. specialize (H cx' cy'). unfold ctor_runs in *. simpl.
  rewrite filter_app, length_app, H.
  destruct (decide (cx = cx' ∧ cy = cy')) as [[-> ->]|Hne].
  - rewrite Hnone, lookup_insert_eq.
    rewrite filter_cons_True by done. done.
  - rewrite lookup_insert_ne by (intros [? ?]%key_inj; by apply Hne).
    rewrite filter_cons_False by (simpl; intros [? ?]; by apply Hne).
    simpl. lia.
Qed.

Lemma getChunk_seq_app T (pre post : list (Z * Z)) :
  getChunk_seq T (pre ++ post) = getChunk_seq (getChunk_seq T pre) post.
Proof. apply foldl_app. Qed.

Lemma getChunk_seq_cons T cx cy (calls : list (Z * Z)) :
  getChunk_seq T ((cx, cy) :: calls)
  = getChunk_seq (Terrain.getChunk T cx cy).2 calls.
Proof. done. Qed.

Lemma getChunk_seq_inv T (calls : list (Z * Z)) :
  coherent T → counted T →
  coherent (getChunk_seq T calls) ∧ counted (getChunk_seq T calls)
  ∧ Terrain.store T `prefix_of` Terrain.store (getChunk_seq T calls)
  ∧ Terrain.chunks T ⊆ Terrain.chunks (getChunk_seq T calls)
  ∧ Terrain.tileSize (getChunk_seq T calls) = Terrain.tileSize T
  ∧ Terrain.chunkSize (getChunk_seq T calls) = Terrain.chunkSize T
  ∧ Terrain.noise (getChunk_seq T calls) = Terrain.noise T.
Proof.
  revert T. induction calls as [|[cx cy] calls IH]; intros T Hc Hn.
  - done.
  - rewrite getChunk_seq_cons.
    destruct (IH (Terrain.getChunk T cx cy).2)
      as (H1 & H2 & H3 & H4 & H5 & H6 & H7);
      [by apply getChunk_coherent | by apply getChunk_counted |].
    destruct (getChunk_grows T cx cy) as [G1 G2].
    destruct (getChunk_fields T cx cy) as (F1 & F2 & F3).
    rewrite H5, H6, H7.
    split; [done|]. split; [done|].
    split; [by etrans|]. split; [by etrans|]. done.
Qed.

(** What a call returns in a coherent state: the cached object for the
    pair, which is the chunk built for that pair. *)
Lemma getChunk_returns T cx cy :
  coherent T →
  ∃ l, (Terrain.getChunk T cx cy).1 = Some l
    ∧ Terrain.chunks (Terrain.getChunk T cx cy).2 !! Terrain.key cx cy = Some l
    ∧ Terrain.store (Terrain.getChunk T cx cy).2 !! l
      = Some (Chunk.new cx cy (Terrain.tileSize T) 16 (Terrain.noise T)).
Proof.
  intros [H1 H2].
  destruct (getChunk_cases T cx cy) as [(l & Hl & ->)|[Hnone ->]]; simpl.
  - exists l. split; [done|]. split; [done|].
    destruct (H1 _ _ Hl) as (cx' & cy' & [-> ->]%key_inj & Hs). done.
  - eexists. split; [done|]. split; [by rewrite lookup_insert_eq|].
    by rewrite lookup_app_r, Nat.sub_diag by lia.
Qed.

End Cache.

(** C1.  Start from a fresh terrain and make any calls of [getChunk], [N]
    of them (N >= 1) for the pair [(cx, cy)] and the others for any pairs,
    in any order.  Then [new Chunk] has run exactly once for [(cx, cy)];
    there is one chunk object [l], the grid generated for [(cx, cy)], such
    that every call for the pair returns [l], and right after each such
    call the store holds that same grid at [l] and the construction count
    is 1: no call regenerates or replaces the cached chunk. *)
Theorem getChunk_once (tileSize chunkSize : Z) (noise : Q → Q → Q)
    (calls : list (Z * Z)) (cx cy : Z) (N : nat)
    (HN : (1 <= N)%nat)
    (Hcalls : length (filter (λ c, c = (cx, cy)) calls) = N) :
  ctor_runs (getChunk_seq (Terrain.new tileSize chunkSize noise) calls) cx cy
  = 1%nat
  ∧ ∃ l,
      Terrain.store (getChunk_seq (Terrain.new tileSize chunkSize noise) calls)
        !! l
      = Some (Chunk.new cx cy tileSize 16 noise)
      ∧ ∀ pre post, calls = pre ++ (cx, cy) :: post →
          (Terrain.getChunk
             (getChunk_seq (Terrain.new tileSize chunkSize noise) pre) cx cy).1
          = Some l
          ∧ Terrain.store
              (Terrain.getChunk
                 (getChunk_seq (Terrain.new tileSize chunkSize noise) pre)
                 cx cy).2 !! l
            = Some (Chunk.new cx cy tileSize 16 noise)
          ∧ ctor_runs
              (Terrain.getChunk
                 (getChunk_seq (Terrain.new tileSize chunkSize noise) pre)
                 cx cy).2 cx cy
            = 1%nat.
Proof.
  set (T0 := Terrain.new tileSize chunkSize noise).
  destruct (coherent_new tileSize chunkSize noise) as [Hc0 Hn0]. fold T0 in Hc0, Hn0.
  (* what one call for the pair establishes, at any split of the run *)
  assert (∀ pre post, calls = pre ++ (cx, cy) :: post →
            ∃ l, (Terrain.getChunk (getChunk_seq T0 pre) cx cy).1 = Some l
              ∧ Terrain.store (Terrain.getChunk (getChunk_seq T0 pre) cx cy).2 !! l
                = Some (Chunk.new cx cy tileSize 16 noise)
              ∧ ctor_runs (Terrain.getChunk (getChunk_seq T0 pre) cx cy).2 cx cy
                = 1%nat
              ∧ Terrain.chunks (getChunk_seq T0 calls) !! Terrain.key cx cy = Some l
              ∧ Terrain.store (getChunk_seq T0 calls) !! l
                = Some (Chunk.new cx cy tileSize 16 noise)
              ∧ ctor_runs (getChunk_seq T0 calls) cx cy = 1%nat) as Hcall.
  { intros pre post ->.
    destruct (getChunk_seq_inv T0 pre Hc0 Hn0) as (Hc1 & Hn1 & _ & _ & Hts & _ & Hno).
    destruct (getChunk_returns _ cx cy Hc1) as (l & Hl & Hk & Hs).
    rewrite Hts, Hno in Hs. simpl in Hs.
    pose proof (getChunk_coherent _ cx cy Hc1) as Hc2.
    pose proof (getChunk_counted _ cx cy Hn1) as Hn2.
    destruct (getChunk_seq_inv _ post Hc2 Hn2) as (_ & Hn3 & Hpre & Hsub & _).
    rewrite getChunk_seq_app, getChunk_seq_cons.
    exists l. split; [done|]. split; [done|].
    split; [by rewrite (Hn2 cx cy), Hk|].
    assert (Terrain.chunks
              (getChunk_seq (Terrain.getChunk (getChunk_seq T0 pre) cx cy).2 post)
              !! Terrain.key cx cy = Some l) as Hk3
      by (by eapply lookup_weaken).
    split; [done|].
    split; [by eapply prefix_lookup_Some|].
    by rewrite (Hn3 cx cy), Hk3. }
  assert ((cx, cy) ∈ calls) as Hin.
  { destruct (filter (λ c, c = (cx, cy)) calls) as [|c cs] eqn:E;
      [simpl in Hcalls; lia|].
    assert (c ∈ filter (λ c, c = (cx, cy)) calls) as Hc
      by (rewrite E; apply list_elem_of_here).
    apply list_elem_of_filter in Hc as [-> Hc]. done. }
  apply list_elem_of_split in Hin as (pre0 & post0 & Hsplit).
  destruct (Hcall pre0 post0 Hsplit) as (l & _ & _ & _ & Hk & Hs & Hruns).
  split; [done|]. exists l. split; [done|].
  intros pre post Hpp.
  destruct (Hcall pre post Hpp) as (l' & H1 & H2 & H3 & Hk' & _).
  assert (l' = l) as -> by congruence. done.
Qed.

Lemma getChunk_once_witness :
  ctor_runs
    (getChunk_seq (Terrain.new 20 16 spike) [(0, 0); (1, 0); (0, 0)]) 0 0
  = 1%nat.
Proof.
  assert (1 <= 2)%nat as H1 by lia.
  assert (length (filter (λ c, c = (0, 0)) [(0, 0); (1, 0); (0, 0)]) = 2%nat)
    as H2 by reflexivity.
  exact (proj1 (getChunk_once 20 16 spike [(0, 0); (1, 0); (0, 0)] 0 0 2 H1 H2)).
Defined.

(** ** Decomposition of world coordinates *)

Lemma floor_unique (y : Q) (q : Z) :
  (inject_Z q <= y)%Q → (y < inject_Z (q + 1))%Q → Qfloor y = q.
Proof.
  intros Hlo Hhi.
  assert (q <= Qfloor y) as H1.
  { rewrite <- (Qfloor_Z q). by apply Qfloor_resp_le. }
  assert (Qfloor y < q + 1) as H2.
  { rewrite Zlt_Qlt. eapply Qle_lt_trans; [apply Qfloor_le | done]. }
  lia.
Qed.

Lemma inject_Z_pos (c : Z) : 0 < c → (0 < inject_Z c)%Q.
Proof. intros H. change 0%Q with (inject_Z 0). by rewrite <- Zlt_Qlt. Qed.

(** Flooring after an exact division by a positive integer is the floor
    division of the floor. *)
Lemma floor_div (x : Q) (c : Z) :
  0 < c → JS.floor (x / inject_Z c) = JS.floor x / c.
Proof.
  intros Hc. unfold JS.floor. apply floor_unique.
  - apply Qle_shift_div_l; [by apply inject_Z_pos|].
    rewrite <- inject_Z_mult.
    eapply Qle_trans; [|apply Qfloor_le].
    rewrite <- Zle_Qle. pose proof (Z.mul_div_le (Qfloor x) c Hc). lia.
  - apply Qlt_shift_div_r; [by apply inject_Z_pos|].
    rewrite <- inject_Z_mult.
    eapply Qlt_le_trans; [apply Qlt_floor|].
    rewrite <- Zle_Qle. pose proof (Z.mul_succ_div_gt (Qfloor x) c Hc). lia.
Qed.

(** The double remainder is the non-negative residue. *)
Lemma double_rem (a c : Z) : 0 < c → JS.rem (JS.rem a c + c) c = a mod c.
Proof.
  intros Hc. unfold JS.rem.
  pose proof (Z.rem_bound_abs a c ltac:(lia)) as Hb.
  rewrite Z.rem_mod_nonneg by lia.
  rewrite <- Zplus_mod_idemp_r, Z_mod_same_full, Z.add_0_r.
  destruct (Z.le_gt_cases 0 a) as [Ha|Ha].
  - rewrite Z.rem_mod_nonneg by lia. by rewrite Zmod_mod.
  - rewrite <- (Z.opp_involutive a) at 1. rewrite Z.rem_opp_l by lia.
    rewrite Z.rem_mod_nonneg by lia.
    rewrite <- (Z.opp_involutive a) at 2.
    generalize (- a). intros b.
    destruct (decide (b mod c = 0)) as [E|E].
    + rewrite E. simpl. rewrite Z.mod_0_l by lia.
      symmetry. apply Z.mod_opp_l_z; lia.
    + rewrite (Z.mod_opp_l_nz b c) by lia.
      rewrite Z.mod_opp_l_nz; rewrite ?Zmod_mod; lia.
Qed.

Lemma decompose_axis (x : Q) (chunkSize : Z) :
  0 < chunkSize →
  Terrain.chunkCoord chunkSize x * chunkSize + Terrain.localCoord chunkSize x
  = JS.floor x
  ∧ 0 <= Terrain.localCoord chunkSize x < chunkSize.
Proof.
  intros Hc. unfold Terrain.chunkCoord, Terrain.localCoord.
  rewrite floor_div, double_rem by done.
  pose proof (Z.div_mod (JS.floor x) chunkSize ltac:(lia)).
  pose proof (Z.mod_pos_bound (JS.floor x) chunkSize Hc). lia.
Qed.

Lemma decompose_unique (a chunkSize c l c' l' : Z) :
  0 < chunkSize →
  c * chunkSize + l = a → 0 <= l < chunkSize →
  c' * chunkSize + l' = a → 0 <= l' < chunkSize →
  c = c' ∧ l = l'.
Proof. intros Hc H1 H2 H3 H4. assert (c = c') by nia. subst. lia. Qed.

(** The cell of a generated grid at an in-range local pair holds the height
    of the world tile that the chunk formula assigns to it. *)
Lemma generateTiles_read (chunkX chunkY size : Z) (noise : Q → Q → Q)
    (localX localY : Z) :
  0 <= localX < size → 0 <= localY < size →
  Terrain.readTile (Chunk.generateTiles chunkX chunkY size noise) localX localY
  = Ok (Chunk.tileValue noise (Chunk.worldCoord chunkX size localX)
                              (Chunk.worldCoord chunkY size localY)).
Proof.
  intros Hx Hy. unfold Terrain.readTile, Chunk.generateTiles.
  rewrite <- (Z2Nat.id localY) at 1 by lia. rewrite index_of_nat.
  rewrite list_lookup_fmap, lookup_seq_lt by lia. simpl.
  rewrite <- (Z2Nat.id localX) at 1 by lia. rewrite index_of_nat.
  rewrite list_lookup_fmap, lookup_seq_lt by lia. simpl.
  by rewrite !Z2Nat.id by lia.
Qed.

(** C2.  For every world coordinate pair and every positive chunk size, the
    decomposition of [getValue] satisfies
    [chunkX * chunkSize + localX = floor(worldX)] with
    [0 <= localX < chunkSize], and the same along Y, also for negative
    coordinates; it is the only pair with these two properties, and in a
    grid generated with that edge length it addresses the cell that
    [generateTiles] filled for the world tile
    [(floor(worldX), floor(worldY))]. *)
Theorem decompose_invertible (worldX worldY : Q) (chunkSize : Z)
    (Hsize : 0 < chunkSize) :
  Terrain.chunkCoord chunkSize worldX * chunkSize
    + Terrain.localCoord chunkSize worldX = JS.floor worldX
  ∧ Terrain.chunkCoord chunkSize worldY * chunkSize
    + Terrain.localCoord chunkSize worldY = JS.floor worldY
  ∧ 0 <= Terrain.localCoord chunkSize worldX < chunkSize
  ∧ 0 <= Terrain.localCoord chunkSize worldY < chunkSize
  ∧ (∀ c l, c * chunkSize + l = JS.floor worldX → 0 <= l < chunkSize →
       c = Terrain.chunkCoord chunkSize worldX
       ∧ l = Terrain.localCoord chunkSize worldX)
  ∧ (∀ c l, c * chunkSize + l = JS.floor worldY → 0 <= l < chunkSize →
       c = Terrain.chunkCoord chunkSize worldY
       ∧ l = Terrain.localCoord chunkSize worldY)
  ∧ (∀ noise,
       Terrain.readTile
         (Chunk.generateTiles (Terrain.chunkCoord chunkSize worldX)
                              (Terrain.chunkCoord chunkSize worldY)
                              chunkSize noise)
         (Terrain.localCoord chunkSize worldX)
         (Terrain.localCoord chunkSize worldY)
       = Ok (Chunk.tileValue noise (JS.floor worldX) (JS.floor worldY))).
Proof.
  destruct (decompose_axis worldX chunkSize Hsize) as [Hx Hlx].
  destruct (decompose_axis worldY chunkSize Hsize) as [Hy Hly].
  split; [done|]. split; [done|]. split; [done|]. split; [done|].
  split; [|split].
  - intros c l H1 H2. by eapply decompose_unique.
  - intros c l H1 H2. by eapply decompose_unique.
  - intros noise. rewrite generateTiles_read by done.
    unfold Chunk.worldCoord. by rewrite Hx, Hy.
Qed.

Lemma decompose_invertible_witness :
  Terrain.chunkCoord 16 (- (5 # 2)) * 16 + Terrain.localCoord 16 (- (5 # 2))
  = JS.floor (- (5 # 2))
  ∧ 0 <= Terrain.localCoord 16 (- (5 # 2)) < 16.
Proof.
  assert (0 < 16) as H by lia.
  destruct (decompose_invertible (- (5 # 2)) (7 # 3) 16 H)
    as (Hx & _ & Hlx & _).
  split; [exact Hx | exact Hlx].
Defined.

Example decompose_negative :
  Terrain.chunkCoord 16 (- (5 # 2)) = -1
  ∧ Terrain.localCoord 16 (- (5 # 2)) = 13
  ∧ JS.floor (- (5 # 2)) = -3.
Proof. vm_compute. done. Qed.

(** ** Height queries *)

Section Queries.

Implicit Types (T : Terrain.t) (x y : Q).

Lemma getValue_state T x y :
  (Terrain.getValue T x y).2
  = (Terrain.getChunk T (Terrain.chunkCoord (Terrain.chunkSize T) x)
                        (Terrain.chunkCoord (Terrain.chunkSize T) y)).2.
Proof.
  unfold Terrain.getValue. cbv zeta.
  by destruct (Terrain.getChunk T _ _) as [chunk T'].
Qed.

Lemma isPositionWalkable_unfold T x y :
  Terrain.isPositionWalkable T x y
  = (match (Terrain.getValue T x y).1 with
     | Ok v => Ok (JS.geb (norm v) (43 # 100))
     | TypeError => TypeError
     end, (Terrain.getValue T x y).2).
Proof.
  unfold Terrain.isPositionWalkable.
  by destruct (Terrain.getValue T x y) as [value T'].
Qed.

(** In a coherent state the query reads the grid generated for the chunk
    that contains the point. *)
Lemma getValue_reads T x y :
  coherent T →
  (Terrain.getValue T x y).1
  = Terrain.readTile
      (Chunk.generateTiles (Terrain.chunkCoord (Terrain.chunkSize T) x)
                           (Terrain.chunkCoord (Terrain.chunkSize T) y)
                           16 (Terrain.noise T))
      (Terrain.localCoord (Terrain.chunkSize T) x)
      (Terrain.localCoord (Terrain.chunkSize T) y).
Proof.
  intros Hc. unfold Terrain.getValue. cbv zeta.
  destruct (getChunk_returns T
              (Terrain.chunkCoord (Terrain.chunkSize T) x)
              (Terrain.chunkCoord (Terrain.chunkSize T) y) Hc)
    as (l & Hl & _ & Hs).
  destruct (Terrain.getChunk T _ _) as [chunk T']. simpl in *.
  subst chunk. simpl. by rewrite Hs.
Qed.

Lemma readTile_missing_row (tiles : list (list Q)) (localX localY : Z) :
  localY < 0 ∨ Z.of_nat (length tiles) <= localY →
  Terrain.readTile tiles localX localY = TypeError.
Proof. intros H. unfold Terrain.readTile. by rewrite index_None. Qed.

Lemma generateTiles_length (chunkX chunkY size : Z) (noise : Q → Q → Q) :
  length (Chunk.generateTiles chunkX chunkY size noise) = Z.to_nat size.
Proof. unfold Chunk.generateTiles. by rewrite length_map, length_seq. Qed.

Lemma generateTiles_missing_cell (chunkX chunkY size : Z) (noise : Q → Q → Q)
    (localX localY : Z) :
  0 <= localY < size → localX < 0 ∨ size <= localX →
  Terrain.readTile (Chunk.generateTiles chunkX chunkY size noise) localX localY
  = Ok (-1)%Q.
Proof.
  intros Hy Hx. unfold Terrain.readTile, Chunk.generateTiles.
  rewrite <- (Z2Nat.id localY) at 1 by lia. rewrite index_of_nat.
  rewrite list_lookup_fmap, lookup_seq_lt by lia. simpl.
  rewrite index_None; [done|]. rewrite length_map, length_seq. lia.
Qed.

(** The three outcomes of [getValue] in a coherent state, by the position
    of the local pair with respect to the 16 x 16 grid. *)
Lemma getValue_outcomes T x y :
  coherent T →
  (0 <= Terrain.localCoord (Terrain.chunkSize T) y < 16 →
   0 <= Terrain.localCoord (Terrain.chunkSize T) x < 16 →
   (Terrain.getValue T x y).1
   = Ok (Chunk.tileValue (Terrain.noise T)
           (Chunk.worldCoord (Terrain.chunkCoord (Terrain.chunkSize T) x) 16
                             (Terrain.localCoord (Terrain.chunkSize T) x))
           (Chunk.worldCoord (Terrain.chunkCoord (Terrain.chunkSize T) y) 16
                             (Terrain.localCoord (Terrain.chunkSize T) y))))
  ∧ (0 <= Terrain.localCoord (Terrain.chunkSize T) y < 16 →
     ¬ 0 <= Terrain.localCoord (Terrain.chunkSize T) x < 16 →
     (Terrain.getValue T x y).1 = Ok (-1)%Q)
  ∧ (¬ 0 <= Terrain.localCoord (Terrain.chunkSize T) y < 16 →
     (Terrain.getValue T x y).1 = TypeError).
Proof.
  intros Hc. rewrite getValue_reads by done. split; [|split].
  - intros Hy Hx. by apply generateTiles_read.
  - intros Hy Hx. apply generateTiles_missing_cell; [done | lia].
  - intros Hy. apply readTile_missing_row.
    rewrite generateTiles_length. lia.
Qed.

(** With another chunk size the grid is still 16 x 16 and indexed by the
    decomposition for that size: on a terrain of chunk size 8 the query at
    world x = 8 reads the tile generated for world x = 16. *)
Example getValue_edge_mismatch (noise : Q → Q → Q) :
  (Terrain.getValue (Terrain.new 20 8 noise) (inject_Z 8) 0).1
  = Ok (Chunk.tileValue noise 16 0).
Proof.
  destruct (coherent_new 20 8 noise) as [Hc _].
  destruct (getValue_outcomes _ (inject_Z 8) 0%Q Hc) as (H & _ & _).
  assert (Terrain.localCoord 8 (inject_Z 8) = 0) as E8 by reflexivity.
  assert (Terrain.localCoord 8 0 = 0) as E0 by reflexivity.
  rewrite H by (cbn [Terrain.chunkSize Terrain.new]; rewrite ?E8, ?E0; lia).
  reflexivity.
Qed.

(** With the chunk size 16 that [Game] passes, the query is total and
    returns the height of the world tile under the point. *)
Lemma getValue_world_tile T x y :
  coherent T → Terrain.chunkSize T = 16 →
  (Terrain.getValue T x y).1
  = Ok (Chunk.tileValue (Terrain.noise T) (JS.floor x) (JS.floor y)).
Proof.
  intros Hc Hs.
  destruct (decompose_axis x 16 ltac:(lia)) as [Hx Hlx].
  destruct (decompose_axis y 16 ltac:(lia)) as [Hy Hly].
  destruct (getValue_outcomes T x y Hc) as [H _].
  rewrite Hs in *. rewrite H by done.
  unfold Chunk.worldCoord. by rewrite Hx, Hy.
Qed.

End Queries.

(** C5.  The fallback of [getValue] covers a missing cell but not a missing
    row.  On a terrain built with chunk size 32 (its chunks still have 16
    rows of 16 cells) the query at world (0, 16) decomposes to row 16 and
    raises a TypeError where the specification promises -1; at (16, 0) the
    row exists, the cell does not, and the result is -1; at (0, 0) the
    stored height is returned. *)
Theorem getValue_missing_row_raises (noise : Q → Q → Q) :
  Terrain.localCoord 32 (inject_Z 16) = 16
  ∧ (Terrain.getValue (Terrain.new 20 32 noise) 0 (inject_Z 16)).1 = TypeError
  ∧ (Terrain.getValue (Terrain.new 20 32 noise) (inject_Z 16) 0).1 = Ok (-1)%Q
  ∧ (Terrain.getValue (Terrain.new 20 32 noise) 0 0).1
    = Ok (Chunk.tileValue noise 0 0).
Proof.
  destruct (coherent_new 20 32 noise) as [Hc _].
  assert (Terrain.localCoord 32 (inject_Z 16) = 16) as E16 by reflexivity.
  assert (Terrain.localCoord 32 0 = 0) as E0 by reflexivity.
  split; [done|]. split; [|split].
  - destruct (getValue_outcomes _ 0%Q (inject_Z 16) Hc) as (_ & _ & H).
    apply H. simpl. rewrite E16. lia.
  - destruct (getValue_outcomes _ (inject_Z 16) 0%Q Hc) as (_ & H & _).
    apply H; simpl; rewrite ?E16, ?E0; lia.
  - destruct (getValue_outcomes _ 0%Q 0%Q Hc) as (H & _ & _).
    rewrite H by (simpl; rewrite E0; lia). done.
Qed.

(** ** Walkability *)

(** C9.  [isPositionWalkable(x, y)] returns true exactly when the class of
    the height that [getValue(x, y)] returns is not Water, that is exactly
    when the norm of that height is at least 0.43; it raises when
    [getValue] raises, and leaves the terrain in the state that [getValue]
    leaves it in. *)
Theorem walkable_iff_not_water (T : Terrain.t) (x y : Q) :
  (∀ v, (Terrain.getValue T x y).1 = Ok v →
     ∃ b, (Terrain.isPositionWalkable T x y).1 = Ok b
       ∧ (b = true ↔ Terrain.classify v ≠ Water)
       ∧ (b = true ↔ Terrain.getColor v ≠ fillStyle Water)
       ∧ (b = true ↔ (43 # 100 <= norm v)%Q))
  ∧ ((Terrain.getValue T x y).1 = TypeError →
     (Terrain.isPositionWalkable T x y).1 = TypeError)
  ∧ (Terrain.isPositionWalkable T x y).2 = (Terrain.getValue T x y).2.
Proof.
  rewrite isPositionWalkable_unfold. simpl. split; [|split; [|done]].
  - intros v ->. eexists. split; [done|].
    assert (JS.geb (norm v) (43 # 100) = true ↔ Terrain.classify v ≠ Water) as Hcls.
    { rewrite geb_true.
      destruct (classify_intervals v) as [Hw _]. rewrite Hw. split.
      - intros H1 H2. lra.
      - intros H. apply Qnot_lt_le. done. }
    split; [done|]. split; [|apply geb_true].
    rewrite Hcls. unfold Terrain.getColor. split.
    + intros H1 H2. by apply (fillStyle_inj _ Water) in H2.
    + intros H1 H2. apply H1. by rewrite H2.
  - by intros ->.
Qed.

(** On the terrain that [Game] builds (chunk size 16) every query returns:
    the statement above is never about an absent result there. *)
Lemma walkable_total_16 (T : Terrain.t) (x y : Q) :
  coherent T → Terrain.chunkSize T = 16 →
  (Terrain.isPositionWalkable T x y).1
  = Ok (JS.geb (norm (Chunk.tileValue (Terrain.noise T) (JS.floor x) (JS.floor y)))
               (43 # 100)).
Proof.
  intros Hc Hs. by rewrite isPositionWalkable_unfold, getValue_world_tile.
Qed.

(** ** Which operations create chunks *)

Section Demand.

Implicit Types (T : Terrain.t) (cx cy : Z) (o : Op).

Lemma getChunk_seq_chunkSize T (calls : list (Z * Z)) :
  Terrain.chunkSize (getChunk_seq T calls) = Terrain.chunkSize T
  ∧ Terrain.noise (getChunk_seq T calls) = Terrain.noise T
  ∧ Terrain.tileSize (getChunk_seq T calls) = Terrain.tileSize T.
Proof.
  revert T. induction calls as [|[a b] calls IH]; intros T; [done|].
  rewrite getChunk_seq_cons.
  destruct (IH (Terrain.getChunk T a b).2) as (-> & -> & ->).
  destruct (getChunk_fields T a b) as (-> & -> & ->). done.
Qed.

Lemma drawLoop_state_from (acc : list (option nat)) T (cs : list (Z * Z)) :
  (foldl (λ (acc : list (option nat) * Terrain.t) (c : Z * Z),
            let '(chunk, T') := Terrain.getChunk acc.2 c.1 c.2 in
            (acc.1 ++ [chunk], T'))
         (acc, T) cs).2
  = getChunk_seq T cs.
Proof.
  revert acc T. induction cs as [|[a b] cs IH]; intros acc T; [reflexivity|].
  rewrite getChunk_seq_cons. cbn [foldl fst snd].
  destruct (Terrain.getChunk T a b) as [chunk T'] eqn:E.
  apply IH.
Qed.

Lemma drawLoop_state T (cs : list (Z * Z)) :
  (Terrain.drawLoop T cs).2 = getChunk_seq T cs.
Proof. apply drawLoop_state_from. Qed.

(** Every operation acts on the terrain as the [getChunk] calls it makes. *)
Lemma step_calls T o :
  step T o = getChunk_seq T (requested (Terrain.chunkSize T) o).
Proof.
  destruct o as [x y|x y|v|cameraX cameraY]; unfold step, requested.
  - rewrite getValue_state. reflexivity.
  - rewrite isPositionWalkable_unfold. cbn [snd].
    rewrite getValue_state. reflexivity.
  - reflexivity.
  - unfold Terrain.draw. apply drawLoop_state.
Qed.

Lemma run_calls T (ops : list Op) :
  run T ops
  = getChunk_seq T (ops ≫= requested (Terrain.chunkSize T)).
Proof.
  revert T. induction ops as [|o ops IH]; intros T; [done|].
  change (run T (o :: ops)) with (run (step T o) ops).
  rewrite IH, step_calls. cbn [mbind list_bind]. rewrite getChunk_seq_app.
  by destruct (getChunk_seq_chunkSize T (requested (Terrain.chunkSize T) o))
    as (-> & _).
Qed.

Lemma getChunk_cached T a b cx cy :
  is_Some (Terrain.chunks (Terrain.getChunk T a b).2 !! Terrain.key cx cy)
  ↔ is_Some (Terrain.chunks T !! Terrain.key cx cy) ∨ (a, b) = (cx, cy).
Proof.
  destruct (getChunk_cases T a b) as [(l & Hl & ->)|[Hnone ->]]; simpl.
  - split; [by left|]. intros [H|[= -> ->]]; [done | by rewrite Hl].
  - rewrite lookup_insert_is_Some. split.
    + intros [[-> ->]%key_inj|[_ H]]; [by right | by left].
    + intros [H|[= -> ->]]; [|by left].
      destruct (decide (Terrain.key a b = Terrain.key cx cy)); [by left|by right].
Qed.

Lemma getChunk_seq_cached T (calls : list (Z * Z)) cx cy :
  is_Some (Terrain.chunks (getChunk_seq T calls) !! Terrain.key cx cy)
  ↔ is_Some (Terrain.chunks T !! Terrain.key cx cy) ∨ (cx, cy) ∈ calls.
Proof.
  revert T. induction calls as [|[a b] calls IH]; intros T.
  - simpl. rewrite elem_of_nil. tauto.
  - rewrite getChunk_seq_cons, IH, getChunk_cached, elem_of_cons.
    split; [intros [[H|H]|H] | intros [H|[H|H]]]; auto.
Qed.

Lemma offsets_range (d : Z) :
  d ∈ Terrain.offsets ↔ - Terrain.viewRadius <= d <= Terrain.viewRadius.
Proof.
  unfold Terrain.offsets, Terrain.viewRadius.
  rewrite list_elem_of_fmap. setoid_rewrite elem_of_seq. split.
  - intros (i & -> & Hi). simpl in Hi. lia.
  - intros Hd. exists (Z.to_nat (d + 3)). simpl. lia.
Qed.

(** The double loop of [draw] visits exactly the chunk pairs within square
    distance [viewRadius] of the camera's chunk. *)
Lemma window_in_view (camChunkX camChunkY cx cy : Z) :
  (cx, cy) ∈ Terrain.window camChunkX camChunkY
  ↔ in_view camChunkX camChunkY cx cy.
Proof.
  unfold Terrain.window, in_view.
  rewrite list_elem_of_bind. setoid_rewrite list_elem_of_bind.
  setoid_rewrite list_elem_of_singleton. setoid_rewrite offsets_range.
  unfold Terrain.viewRadius. split.
  - intros (dy & (dx & [= -> ->] & Hdx) & Hdy). lia.
  - intros [Hx Hy]. exists (cy - camChunkY). split; [|lia].
    exists (cx - camChunkX). split; [f_equal; lia | lia].
Qed.

Lemma requested_demands (chunkSize : Z) o cx cy :
  (cx, cy) ∈ requested chunkSize o ↔ demands chunkSize o cx cy.
Proof.
  destruct o as [x y|x y|v|cameraX cameraY]; simpl.
  - rewrite list_elem_of_singleton. split; [by intros [= -> ->] | by intros [-> ->]].
  - rewrite list_elem_of_singleton. split; [by intros [= -> ->] | by intros [-> ->]].
  - by rewrite elem_of_nil.
  - apply window_in_view.
Qed.

(** On a terrain that started empty, the construction count of a pair is 1
    if some operation of the run demanded it and 0 otherwise. *)
Lemma run_ctor_runs (tileSize chunkSize : Z) (noise : Q → Q → Q)
    (ops : list Op) cx cy :
  (ctor_runs (run (Terrain.new tileSize chunkSize noise) ops) cx cy = 1%nat
   ↔ ∃ o, o ∈ ops ∧ demands chunkSize o cx cy)
  ∧ (ctor_runs (run (Terrain.new tileSize chunkSize noise) ops) cx cy = 0%nat
     ↔ ¬ ∃ o, o ∈ ops ∧ demands chunkSize o cx cy).
Proof.
  destruct (coherent_new tileSize chunkSize noise) as [Hc Hn].
  rewrite run_calls.
  change (Terrain.chunkSize (Terrain.new tileSize chunkSize noise))
    with chunkSize.
  destruct (getChunk_seq_inv _ (ops ≫= requested chunkSize) Hc Hn)
    as (_ & Hn' & _).
  pose proof (getChunk_seq_cached (Terrain.new tileSize chunkSize noise)
                (ops ≫= requested chunkSize) cx cy) as Hdom.
  change (Terrain.chunks (Terrain.new tileSize chunkSize noise))
    with (∅ : gmap string nat) in Hdom.
  rewrite lookup_empty in Hdom.
  assert ((cx, cy) ∈ ops ≫= requested chunkSize
          ↔ ∃ o, o ∈ ops ∧ demands chunkSize o cx cy) as Hreq.
  { rewrite list_elem_of_bind. split.
    - intros (o & Hin & Ho). exists o. split; [done|].
      by apply requested_demands.
    - intros (o & Ho & Hd). exists o. split; [|done].
      by apply requested_demands. }
  rewrite (Hn' cx cy), <- Hreq.
  destruct (Terrain.chunks _ !! Terrain.key cx cy) as [l|] eqn:E.
  - assert ((cx, cy) ∈ ops ≫= requested chunkSize) as Hin.
    { destruct Hdom as [[[? ?]|?] _]; [by eexists | done | done]. }
    split; split; done.
  - assert (¬ (cx, cy) ∈ ops ≫= requested chunkSize) as Hout.
    { intros Hin. destruct Hdom as [_ [? ?]]; [by right | done]. }
    split; split; done.
Qed.

End Demand.

(** C3 (amended).  On a terrain that started empty, after any run of public
    operations a chunk has been constructed for a pair exactly when some
    operation of the run demanded it, and then once: [draw] demands exactly
    the pairs within square distance [viewRadius] = 3 of the camera's
    chunk, inclusive; [getValue] and [isPositionWalkable] demand the chunk
    that contains the queried point, wherever the camera is; [getColor]
    demands none.  The chunk size is not zero: with chunk size 0 the
    quotients of the source are not finite numbers. *)
Theorem chunks_created_on_demand (tileSize chunkSize : Z) (noise : Q → Q → Q)
    (ops : list Op) (cx cy : Z) (Hsize : chunkSize ≠ 0) :
  (ctor_runs (run (Terrain.new tileSize chunkSize noise) ops) cx cy = 1%nat
   ↔ ∃ o, o ∈ ops ∧ demands chunkSize o cx cy)
  ∧ (ctor_runs (run (Terrain.new tileSize chunkSize noise) ops) cx cy = 0%nat
     ↔ ¬ ∃ o, o ∈ ops ∧ demands chunkSize o cx cy)
  ∧ (∀ T cameraX cameraY,
       (Terrain.draw T cameraX cameraY).2
       = getChunk_seq T
           (Terrain.window (Terrain.chunkCoord (Terrain.chunkSize T) cameraX)
                           (Terrain.chunkCoord (Terrain.chunkSize T) cameraY)))
  ∧ (∀ camChunkX camChunkY,
       (cx, cy) ∈ Terrain.window camChunkX camChunkY
       ↔ in_view camChunkX camChunkY cx cy)
  ∧ (∀ T x y,
       (Terrain.getValue T x y).2
       = (Terrain.getChunk T (Terrain.chunkCoord (Terrain.chunkSize T) x)
                             (Terrain.chunkCoord (Terrain.chunkSize T) y)).2
       ∧ (Terrain.isPositionWalkable T x y).2 = (Terrain.getValue T x y).2).
Proof.
  destruct (run_ctor_runs tileSize chunkSize noise ops cx cy) as [H1 H0].
  split; [done|]. split; [done|]. split; [|split].
  - intros T cameraX cameraY. unfold Terrain.draw. apply drawLoop_state.
  - intros a b. apply window_in_view.
  - intros T x y. split; [apply getValue_state|].
    by rewrite isPositionWalkable_unfold.
Qed.

Lemma chunks_created_on_demand_witness :
  ctor_runs (run (Terrain.new 20 16 spike) [OpGetColor 0; OpDraw 0 0]) 3 (-3)
  = 1%nat
  ↔ ∃ o, o ∈ [OpGetColor 0; OpDraw 0 0] ∧ demands 16 o 3 (-3).
Proof.
  assert (16 ≠ 0) as H by lia.
  exact (proj1 (chunks_created_on_demand 20 16 spike
                  [OpGetColor 0; OpDraw 0 0] 3 (-3) H)).
Defined.

(** A walkability query far from the camera builds a chunk outside the
    view window: after one frame drawn with the camera at the origin no
    chunk exists for (62, 62), which is not in view of the camera's chunk
    (0, 0); after [isPositionWalkable(1000, 1000)] one does. *)
Lemma walkability_query_creates_chunk :
  Terrain.chunkCoord 16 0 = 0
  ∧ Terrain.chunkCoord 16 1000 = 62
  ∧ ¬ in_view 0 0 62 62
  ∧ ctor_runs
      (run (Terrain.new 20 16 (ImprovedNoise.noise (ImprovedNoise.new rnd_ramp)))
           [OpDraw 0 0]) 62 62 = 0%nat
  ∧ ctor_runs
      (run (Terrain.new 20 16 (ImprovedNoise.noise (ImprovedNoise.new rnd_ramp)))
           [OpDraw 0 0; OpIsPositionWalkable 1000 1000]) 62 62 = 1%nat.
Proof.
  assert (Terrain.chunkCoord 16 0 = 0) as E0 by reflexivity.
  assert (Terrain.chunkCoord 16 1000 = 62) as E1 by reflexivity.
  assert (¬ in_view 0 0 62 62) as Hout.
  { unfold in_view, Terrain.viewRadius. lia. }
  split; [done|]. split; [done|]. split; [done|]. split.
  - apply run_ctor_runs. intros (o & Ho & Hd).
    apply list_elem_of_singleton in Ho as ->.
    unfold demands in Hd. rewrite E0 in Hd. done.
  - apply run_ctor_runs. exists (OpIsPositionWalkable 1000 1000).
    split; [set_solver|]. unfold demands. by rewrite E1.
Qed.

(** ** The table after construction *)

(** C4 (amended).  After construction the table has 512 entries; each of
    the first 256 is the floor of 256 times one result of [Math.random],
    an integer in [0, 256), drawn independently of the others, so values
    may repeat and others may be missing; entries 256..511 mirror entries
    0..255; no operation of a terrain changes the noise object it holds. *)
Theorem table_after_construction (rnd : nat → Q)
    (Hrnd : ImprovedNoise.random_source rnd) :
  length (ImprovedNoise.new rnd) = 512%nat
  ∧ (∀ i, (i < 256)%nat →
       ImprovedNoise.new rnd !! i = Some (JS.floor (rnd i * 256))
       ∧ ImprovedNoise.new rnd !! (256 + i)%nat = ImprovedNoise.new rnd !! i
       ∧ 0 <= JS.floor (rnd i * 256) < 256)
  ∧ (∀ (T : Terrain.t) (ops : list Op),
       Terrain.noise (run T ops) = Terrain.noise T)
  ∧ (∀ (T : Terrain.t) (calls : list (Z * Z)),
       Terrain.noise (getChunk_seq T calls) = Terrain.noise T).
Proof.
  split; [apply new_length|]. split; [|split].
  - intros i Hi. rewrite new_lookup_high, new_lookup_low by done.
    split; [done|]. split; [done|]. by apply entry_range.
  - intros T ops. rewrite run_calls. apply getChunk_seq_chunkSize.
  - intros T calls. apply getChunk_seq_chunkSize.
Qed.

Lemma table_after_construction_witness :
  length (ImprovedNoise.new rnd_zero) = 512%nat.
Proof.
  exact (proj1 (table_after_construction rnd_zero rnd_zero_source)).
Defined.

(** A source of random numbers that always returns 0 fills the first half
    of the table with 256 zeros: not a permutation of 0..255. *)
Lemma table_not_permutation :
  ImprovedNoise.random_source rnd_zero
  ∧ take 256 (ImprovedNoise.new rnd_zero) = replicate 256 0
  ∧ ¬ take 256 (ImprovedNoise.new rnd_zero) ≡ₚ Z.of_nat <$> seq 0 256
  ∧ ¬ NoDup (take 256 (ImprovedNoise.new rnd_zero)).
Proof.
  assert (take 256 (ImprovedNoise.new rnd_zero) = replicate 256 0) as E
    by (vm_compute; reflexivity).
  split; [apply rnd_zero_source|]. split; [done|]. rewrite E. split.
  - intros Hp.
    assert (1 ∈ Z.of_nat <$> seq 0 256) as H1.
    { apply list_elem_of_fmap. exists 1%nat. split; [done|].
      apply elem_of_seq. lia. }
    rewrite <- Hp in H1. apply elem_of_replicate in H1 as [H1 _]. lia.
  - change (replicate 256 0) with (0 :: replicate 255 0).
    intros [Hn _]%NoDup_cons. apply Hn.
    apply elem_of_replicate. split; [done | lia].
Qed.

(** * Further properties of the noise *)

Section NoiseRange.

Lemma frac_range (x : Q) :
  (0 <= ImprovedNoise.frac x)%Q ∧ (ImprovedNoise.frac x < 1)%Q.
Proof.
  unfold ImprovedNoise.frac, JS.floor.
  pose proof (Qfloor_le x) as Hlo. pose proof (Qlt_floor x) as Hhi.
  rewrite inject_Z_plus in Hhi. change (inject_Z 1) with 1%Q in Hhi.
  split; lra.
Qed.

Lemma Qsquare_nonneg (a : Q) : (0 <= a * a)%Q.
Proof.
  destruct (Qlt_le_dec a 0).
  - assert (a * a == (- a) * (- a))%Q as -> by ring.
    apply Qmult_le_0_compat; lra.
  - by apply Qmult_le_0_compat.
Qed.

Lemma fade_complement (t : Q) :
  (ImprovedNoise.fade (1 - t) == 1 - ImprovedNoise.fade t)%Q.
Proof. unfold ImprovedNoise.fade. ring. Qed.

Lemma fade_nonneg (t : Q) : (0 <= t)%Q → (0 <= ImprovedNoise.fade t)%Q.
Proof.
  intros Ht. unfold ImprovedNoise.fade.
  assert (t * (t * 6 - 15) + 10 == 6 * ((t - (5 # 4)) * (t - (5 # 4))) + (5 # 8))%Q
    as E by ring.
  pose proof (Qsquare_nonneg (t - (5 # 4))) as Hsq.
  rewrite E. repeat apply Qmult_le_0_compat; try done. lra.
Qed.

Lemma fade_range (t : Q) :
  (0 <= t)%Q → (t <= 1)%Q →
  (0 <= ImprovedNoise.fade t)%Q ∧ (ImprovedNoise.fade t <= 1)%Q.
Proof.
  intros H0 H1. split; [by apply fade_nonneg|].
  assert (0 <= ImprovedNoise.fade (1 - t))%Q as H by (apply fade_nonneg; lra).
  rewrite fade_complement in H. lra.
Qed.

End NoiseRange.

Section NoiseBound.

Lemma band_3_range (n : Z) : 0 <= JS.band n 3 < 4.
Proof.
  unfold JS.band. rewrite (ToInt32_small 3) by lia.
  change 3 with (Z.ones 2). rewrite Z.land_ones by lia.
  apply Z.mod_pos_bound. lia.
Qed.

Lemma band_opt_3_cases (hash : option Z) :
  JS.band_opt hash 3 = 0 ∨ JS.band_opt hash 3 = 1
  ∨ JS.band_opt hash 3 = 2 ∨ JS.band_opt hash 3 = 3.
Proof.
  assert (0 <= JS.band_opt hash 3 < 4) as H.
  { destruct hash; simpl; apply band_3_range. }
  lia.
Qed.

(** The value of [grad] by the two low bits of the hash. *)
Lemma grad_by_bits (hash : option Z) (x y : Q) :
  (JS.band_opt hash 3 = 0 ∧ (ImprovedNoise.grad hash x y == x + y)%Q)
  ∨ (JS.band_opt hash 3 = 1 ∧ (ImprovedNoise.grad hash x y == - x + y)%Q)
  ∨ (JS.band_opt hash 3 = 2 ∧ (ImprovedNoise.grad hash x y == y + - x)%Q)
  ∨ (JS.band_opt hash 3 = 3 ∧ (ImprovedNoise.grad hash x y == - y + - x)%Q).
Proof.
  unfold ImprovedNoise.grad.
  destruct (band_opt_3_cases hash) as [E|[E|[E|E]]]; rewrite E;
    [left | right; left | right; right; left | right; right; right];
    (split; [done | vm_compute; reflexivity || (simpl; reflexivity)]).
Qed.

Lemma grad_abs_bound (hash : option Z) (x y mx my : Q) :
  (- mx <= x)%Q → (x <= mx)%Q → (- my <= y)%Q → (y <= my)%Q →
  (- (mx + my) <= ImprovedNoise.grad hash x y)%Q
  ∧ (ImprovedNoise.grad hash x y <= mx + my)%Q.
Proof.
  intros H1 H2 H3 H4.
  destruct (grad_by_bits hash x y) as [[_ E]|[[_ E]|[[_ E]|[_ E]]]];
    rewrite E; split; lra.
Qed.

(** A blend with a weight in [0, 1] of two bounded values is bounded by
    the same blend of the bounds. *)
Lemma lerp_abs_bound (t a b ma mb : Q) :
  (0 <= t)%Q → (t <= 1)%Q →
  (- ma <= a)%Q → (a <= ma)%Q → (- mb <= b)%Q → (b <= mb)%Q →
  (- lerp t ma mb <= lerp t a b)%Q ∧ (lerp t a b <= lerp t ma mb)%Q.
Proof.
  intros Ht0 Ht1 Ha0 Ha1 Hb0 Hb1. unfold lerp.
  assert (0 <= (1 - t) * (ma - a))%Q by (apply Qmult_le_0_compat; lra).
  assert (0 <= (1 - t) * (ma + a))%Q by (apply Qmult_le_0_compat; lra).
  assert (0 <= t * (mb - b))%Q by (apply Qmult_le_0_compat; lra).
  assert (0 <= t * (mb + b))%Q by (apply Qmult_le_0_compat; lra).
  split; lra.
Qed.

(** [t + fade t - 2 t fade t <= 1/2]: the fade weight is on the same side
    of 1/2 as its argument. *)
Lemma fade_cross_bound (t : Q) :
  (lerp (ImprovedNoise.fade t) t (1 - t) <= 1 # 2)%Q.
Proof.
  assert ((1 # 2) - lerp (ImprovedNoise.fade t) t (1 - t)
          == ((2 * t - 1) * (2 * t - 1))
             * ((6 * ((t * (1 - t) + (1 # 6)) * (t * (1 - t) + (1 # 6)))
                 + (5 # 6)) * (1 # 2)))%Q as E.
  { unfold lerp, ImprovedNoise.fade. ring. }
  assert (0 <= (1 # 2) - lerp (ImprovedNoise.fade t) t (1 - t))%Q as H.
  { rewrite E. apply Qmult_le_0_compat; [apply Qsquare_nonneg|].
    apply Qmult_le_0_compat; [|lra].
    pose proof (Qsquare_nonneg (t * (1 - t) + (1 # 6))). lra. }
  lra.
Qed.

Lemma noise_bounded (p : list Z) (x y : Q) :
  in_unit (ImprovedNoise.noise p x y).
Proof.
  unfold in_unit, ImprovedNoise.noise. cbv zeta.
  destruct (frac_range x) as [Ha0 Ha1]. destruct (frac_range y) as [Hb0 Hb1].
  set (a := ImprovedNoise.frac x) in *. set (b := ImprovedNoise.frac y) in *.
  destruct (fade_range a Ha0 ltac:(lra)) as [Hu0 Hu1].
  destruct (fade_range b Hb0 ltac:(lra)) as [Hv0 Hv1].
  set (g00 := ImprovedNoise.grad _ a b).
  set (g10 := ImprovedNoise.grad _ (a - 1) b).
  set (g01 := ImprovedNoise.grad _ a (b - 1)).
  set (g11 := ImprovedNoise.grad _ (a - 1) (b - 1)).
  assert (- (a + b) <= g00 ∧ g00 <= a + b)%Q as [? ?]
    by (apply grad_abs_bound; lra).
  assert (- ((1 - a) + b) <= g10 ∧ g10 <= (1 - a) + b)%Q as [? ?]
    by (apply grad_abs_bound; lra).
  assert (- (a + (1 - b)) <= g01 ∧ g01 <= a + (1 - b))%Q as [? ?]
    by (apply grad_abs_bound; lra).
  assert (- ((1 - a) + (1 - b)) <= g11 ∧ g11 <= (1 - a) + (1 - b))%Q as [? ?]
    by (apply grad_abs_bound; lra).
  destruct (lerp_abs_bound (ImprovedNoise.fade a) g00 g10 (a + b) ((1 - a) + b))
    as [L1 U1]; try done.
  destruct (lerp_abs_bound (ImprovedNoise.fade a) g01 g11
              (a + (1 - b)) ((1 - a) + (1 - b))) as [L2 U2]; try done.
  destruct (lerp_abs_bound (ImprovedNoise.fade b) _ _ _ _ Hv0 Hv1 L1 U1 L2 U2)
    as [L U].
  pose proof (fade_cross_bound a) as Fa. pose proof (fade_cross_bound b) as Fb.
  assert (lerp (ImprovedNoise.fade b)
            (lerp (ImprovedNoise.fade a) (a + b) (1 - a + b))
            (lerp (ImprovedNoise.fade a) (a + (1 - b)) (1 - a + (1 - b)))
          == lerp (ImprovedNoise.fade a) a (1 - a)
             + lerp (ImprovedNoise.fade b) b (1 - b))%Q as E
    by (unfold lerp; ring).
  rewrite E in L, U. split; lra.
Qed.

End NoiseBound.

Section NoisePeriod.

Lemma band_3 (n : Z) : JS.band n 3 = n mod 4.
Proof.
  unfold JS.band. rewrite (ToInt32_small 3) by lia.
  change 3 with (Z.ones 2). rewrite Z.land_ones by lia.
  unfold JS.ToInt32. change (2 ^ 2) with 4.
  rewrite <- Zminus_mod_idemp_l.
  rewrite Z.mod_mod_divide by (exists (2 ^ 30); lia).
  rewrite Zminus_mod_idemp_l.
  replace (n + 2 ^ 31 - 2 ^ 31) with n by lia. done.
Qed.

Lemma grad_compat (hash : option Z) (x x' y y' : Q) :
  (x == x')%Q → (y == y')%Q →
  (ImprovedNoise.grad hash x y == ImprovedNoise.grad hash x' y')%Q.
Proof.
  intros Hx Hy. unfold ImprovedNoise.grad.
  repeat match goal with |- context [if ?b then _ else _] => destruct b end;
    rewrite Hx, Hy; reflexivity.
Qed.

Lemma fade_compat (t t' : Q) :
  (t == t')%Q → (ImprovedNoise.fade t == ImprovedNoise.fade t')%Q.
Proof. intros H. unfold ImprovedNoise.fade. by rewrite H. Qed.

Lemma lerp_compat (t t' a a' b b' : Q) :
  (t == t')%Q → (a == a')%Q → (b == b')%Q → (lerp t a b == lerp t' a' b')%Q.
Proof. intros Ht Ha Hb. unfold lerp. by rewrite Ht, Ha, Hb. Qed.

Lemma floor_shift (x : Q) (k : Z) :
  JS.floor (x + inject_Z k) = JS.floor x + k.
Proof.
  unfold JS.floor. apply floor_unique.
  - rewrite inject_Z_plus. pose proof (Qfloor_le x). lra.
  - rewrite !inject_Z_plus. pose proof (Qlt_floor x) as H.
    rewrite inject_Z_plus in H. lra.
Qed.

Lemma cell_shift (x : Q) (k : Z) :
  ImprovedNoise.cell (x + inject_Z (256 * k)) = ImprovedNoise.cell x.
Proof.
  unfold ImprovedNoise.cell. rewrite !band_255, floor_shift.
  rewrite Z.mul_comm. apply Z_mod_plus_full.
Qed.

Lemma frac_shift (x : Q) (k : Z) :
  (ImprovedNoise.frac (x + inject_Z k) == ImprovedNoise.frac x)%Q.
Proof.
  unfold ImprovedNoise.frac. rewrite floor_shift, inject_Z_plus. ring.
Qed.

(** Points of one lattice cell with equal fractional parts and the same
    masked cell coordinates have the same noise. *)
Lemma noise_by_cell (p : list Z) (x x' y y' : Q) :
  ImprovedNoise.cell x = ImprovedNoise.cell x' →
  ImprovedNoise.cell y = ImprovedNoise.cell y' →
  (ImprovedNoise.frac x == ImprovedNoise.frac x')%Q →
  (ImprovedNoise.frac y == ImprovedNoise.frac y')%Q →
  (ImprovedNoise.noise p x y == ImprovedNoise.noise p x' y')%Q.
Proof.
  intros Hcx Hcy Hfx Hfy.
  unfold ImprovedNoise.noise, ImprovedNoise.hashA, ImprovedNoise.hashB.
  cbv zeta. rewrite Hcx, Hcy.
  apply lerp_compat; [by apply fade_compat | |];
    (apply lerp_compat; [by apply fade_compat | |]);
    apply grad_compat; rewrite ?Hfx, ?Hfy; reflexivity.
Qed.

Lemma noise_compat (p : list Z) (x x' y y' : Q) :
  (x == x')%Q → (y == y')%Q →
  (ImprovedNoise.noise p x y == ImprovedNoise.noise p x' y')%Q.
Proof.
  intros Hx Hy. apply noise_by_cell.
  - unfold ImprovedNoise.cell, JS.floor. by rewrite (Qfloor_comp _ _ Hx).
  - unfold ImprovedNoise.cell, JS.floor. by rewrite (Qfloor_comp _ _ Hy).
  - unfold ImprovedNoise.frac, JS.floor. by rewrite (Qfloor_comp _ _ Hx), Hx.
  - unfold ImprovedNoise.frac, JS.floor. by rewrite (Qfloor_comp _ _ Hy), Hy.
Qed.

End NoisePeriod.

(** X1.  The fade curve never decreases, on the whole line; it fixes 0 and
    1, stays within [0, 1] between them, and is point-symmetric about
    (1/2, 1/2). *)
Theorem fade_monotone (a b : Q) (Hab : (a <= b)%Q) :
  (ImprovedNoise.fade a <= ImprovedNoise.fade b)%Q
  ∧ (ImprovedNoise.fade 0 == 0)%Q ∧ (ImprovedNoise.fade 1 == 1)%Q
  ∧ (ImprovedNoise.fade (1 - a) == 1 - ImprovedNoise.fade a)%Q
  ∧ ((0 <= a)%Q → (b <= 1)%Q →
     (0 <= ImprovedNoise.fade a)%Q ∧ (ImprovedNoise.fade b <= 1)%Q).
Proof.
  split; [|split; [reflexivity|split; [reflexivity|split]]].
  - set (m := ((a + b) * (1 # 2))%Q). set (d := ((b - a) * (1 # 2))%Q).
    assert (ImprovedNoise.fade b - ImprovedNoise.fade a
            == (b - a) * (30 * (((m - m * m) - d * d * (1 # 3))
                                * ((m - m * m) - d * d * (1 # 3))
                                + (d * (1 - 2 * m)) * (d * (1 - 2 * m)) * (1 # 3)
                                + (d * d) * (d * d) * (4 # 45))))%Q as E.
    { unfold ImprovedNoise.fade, m, d. ring. }
    assert (0 <= ImprovedNoise.fade b - ImprovedNoise.fade a)%Q as H.
    { rewrite E. apply Qmult_le_0_compat; [lra|].
      pose proof (Qsquare_nonneg ((m - m * m) - d * d * (1 # 3))).
      pose proof (Qsquare_nonneg (d * (1 - 2 * m))).
      pose proof (Qsquare_nonneg (d * d)). lra. }
    lra.
  - apply fade_complement.
  - intros H0 H1.
    split; [by apply fade_nonneg | apply fade_range; lra].
Qed.

Lemma fade_monotone_witness :
  (ImprovedNoise.fade (1 # 4) <= ImprovedNoise.fade (3 # 4))%Q.
Proof.
  assert ((1 # 4) <= (3 # 4))%Q as H by lra.
  exact (proj1 (fade_monotone (1 # 4) (3 # 4) H)).
Defined.

(** X2.  [grad] picks its direction by the two low bits of the hash alone
    ([undefined] counts as 0), and its four cases give only three
    different sums: hashes 1 and 2 (mod 4) both give [y - x], and
    [x - y] is never produced. *)
Theorem grad_three_directions (hash : option Z) (x y : Q) :
  ((ImprovedNoise.grad hash x y == x + y)%Q
   ∨ (ImprovedNoise.grad hash x y == y - x)%Q
   ∨ (ImprovedNoise.grad hash x y == - x - y)%Q)
  ∧ (ImprovedNoise.grad (Some 1%Z) x y == ImprovedNoise.grad (Some 2%Z) x y)%Q
  ∧ (∀ h : Z,
       ImprovedNoise.grad (Some h) x y = ImprovedNoise.grad (Some (h mod 4)) x y)
  ∧ ImprovedNoise.grad None x y = ImprovedNoise.grad (Some 0) x y.
Proof.
  split; [|split; [|split]].
  - destruct (grad_by_bits hash x y) as [[_ E]|[[_ E]|[[_ E]|[_ E]]]];
      rewrite E; [left | right; left | right; left | right; right]; ring.
  - destruct (grad_by_bits (Some 1) x y) as [[B _]|[[_ E1]|[[B _]|[B _]]]];
      try discriminate B.
    destruct (grad_by_bits (Some 2) x y) as [[B _]|[[B _]|[[_ E2]|[B _]]]];
      try discriminate B.
    rewrite E1, E2. ring.
  - intros h. unfold ImprovedNoise.grad. simpl.
    rewrite !band_3, Zmod_mod. done.
  - reflexivity.
Qed.

(** X3.  Whatever the table holds and wherever it is sampled, the noise
    lies in [-1, 1]. *)
Theorem noise_range (p : list Z) (x y : Q) :
  (-1 <= ImprovedNoise.noise p x y)%Q ∧ (ImprovedNoise.noise p x y <= 1)%Q.
Proof. apply noise_bounded. Qed.

(** X4.  The noise has period 256 along both axes: shifting the sample
    point by multiples of 256 does not change the value. *)
Theorem noise_period_256 (p : list Z) (x y : Q) (j k : Z) :
  (ImprovedNoise.noise p (x + inject_Z (256 * j)) (y + inject_Z (256 * k))
   == ImprovedNoise.noise p x y)%Q.
Proof.
  apply noise_by_cell; auto using cell_shift, frac_shift.
Qed.

(** * Further properties of the fractal sum and of the tiles *)

Section FbmMore.

Lemma fbm_samples_bounded (noise : Q → Q → Q) (x y lacunarity : Q) (n : nat) :
  (∀ a b, in_unit (noise a b)) →
  ∀ frequency, Forall in_unit (fbm_samples n noise x y lacunarity frequency).
Proof.
  intros H. induction n as [|n IH]; intros frequency; simpl; constructor; auto.
Qed.

Lemma Qsum_zero (f : nat → Q) (n : nat) :
  (∀ i, (i < n)%nat → (f i == 0)%Q) → (Qsum f n == 0)%Q.
Proof.
  induction n as [|n IH]; intros H; simpl; [reflexivity|].
  rewrite IH by (intros; apply H; lia). rewrite (H n) by lia. ring.
Qed.

Lemma noise_at_integers (p : list Z) (x y : Q) (m n : Z) :
  (x == inject_Z m)%Q → (y == inject_Z n)%Q →
  (ImprovedNoise.noise p x y == 0)%Q.
Proof.
  intros Hx Hy. rewrite (noise_compat p _ _ _ _ Hx Hy).
  unfold ImprovedNoise.noise. cbv zeta.
  rewrite lerp_at_zero by apply fade_zero, frac_integer.
  rewrite lerp_at_zero by apply fade_zero, frac_integer.
  apply grad_origin; apply frac_integer.
Qed.

(** At the world origin every octave samples the lattice point (0, 0). *)
Lemma tileValue_origin (p : list Z) :
  (Chunk.tileValue (ImprovedNoise.noise p) 0 0 == 0)%Q.
Proof.
  unfold Chunk.tileValue, fbm. change (Z.to_nat 8) with 8%nat.
  destruct (fbm_loop_sums (ImprovedNoise.noise p) (inject_Z 0 * (3 # 100))
              (inject_Z 0 * (3 # 100)) (21 # 10) (45 # 100) 8 0 1 1 0)
    as [Hv Hm].
  pose proof (fbm_loop_divisor_chunk (ImprovedNoise.noise p)
                (inject_Z 0 * (3 # 100)) (inject_Z 0 * (3 # 100)) 0) as Hd.
  destruct (fbm_loop 8 (ImprovedNoise.noise p) _ _ _ _ 0 1 1 0)
    as [value maxValue].
  cbn [fst snd] in *. rewrite div_Some by lra. cbn [default from_option id].
  rewrite Qsum_zero in Hv.
  - rewrite Hv. field. lra.
  - intros i _.
    rewrite (noise_at_integers p _ _ 0 0); [ring | | ];
      change (inject_Z 0) with 0%Q; ring.
Qed.

Lemma tileValue_bounded (p : list Z) (worldX worldY : Z) :
  in_unit (Chunk.tileValue (ImprovedNoise.noise p) worldX worldY).
Proof.
  unfold Chunk.tileValue.
  destruct (fbm_bounded (ImprovedNoise.noise p)
              (inject_Z worldX * (3 # 100)) (inject_Z worldY * (3 # 100))
              (21 # 10) (45 # 100) 8) as (r & -> & Hr); [lia | lra | | done].
  apply fbm_samples_bounded, noise_bounded.
Qed.

End FbmMore.

(** X5.  [fbm] with an octave count of zero or less divides 0 by 0 and has
    no finite result; with exactly one octave it is the plain noise
    sample, whatever lacunarity and gain are. *)
Theorem fbm_octave_edges (p : list Z) (x y lacunarity gain : Q) :
  (∀ octaves : Z, octaves <= 0 →
     fbm x y (ImprovedNoise.noise p) octaves lacunarity gain = None)
  ∧ (∃ r, fbm x y (ImprovedNoise.noise p) 1 lacunarity gain = Some r
          ∧ (r == ImprovedNoise.noise p x y)%Q).
Proof.
  split.
  - intros octaves H. unfold fbm. rewrite Z2Nat.nonpos by done. reflexivity.
  - unfold fbm. change (Z.to_nat 1) with 1%nat.
    cbn [fbm_loop]. rewrite div_Some by lra.
    eexists. split; [reflexivity|].
    rewrite (noise_compat p (x * 1) x (y * 1) y) by ring. field.
Qed.

(** X6.  Over the gradient noise of any table, [fbm] with at least one
    octave and a gain that is not negative always returns a number in
    [-1, 1], for every input and lacunarity. *)
Theorem fbm_noise_range (p : list Z) (x y lacunarity gain : Q) (octaves : Z)
    (Hoct : 1 <= octaves) (Hgain : (0 <= gain)%Q) :
  ∃ r, fbm x y (ImprovedNoise.noise p) octaves lacunarity gain = Some r
       ∧ (-1 <= r)%Q ∧ (r <= 1)%Q.
Proof.
  destruct (fbm_bounded (ImprovedNoise.noise p) x y lacunarity gain octaves
              Hoct Hgain) as (r & Hr & Hu).
  - apply fbm_samples_bounded, noise_bounded.
  - exists r. split; [done | apply Hu].
Qed.

Lemma fbm_noise_range_witness :
  ∃ r, fbm (13 # 10) (- (27 # 10))
           (ImprovedNoise.noise (ImprovedNoise.new rnd_ramp)) 8 (21 # 10)
           (45 # 100) = Some r
       ∧ (-1 <= r)%Q ∧ (r <= 1)%Q.
Proof.
  assert (1 <= 8) as H1 by lia.
  assert (0 <= 45 # 100)%Q as H2 by lra.
  exact (fbm_noise_range (ImprovedNoise.new rnd_ramp) (13 # 10) (- (27 # 10))
           (21 # 10) (45 # 100) 8 H1 H2).
Defined.

(** X7.  Every cell of every grid that [generateTiles] builds over the
    gradient noise of any table holds a height in [-1, 1], so its norm
    lies in [0, 1]. *)
Theorem generated_tiles_in_range (p : list Z) (chunkX chunkY size : Z) :
  Forall (Forall (λ v, (-1 <= v)%Q ∧ (v <= 1)%Q
                       ∧ (0 <= norm v)%Q ∧ (norm v <= 1)%Q))
         (Chunk.generateTiles chunkX chunkY size (ImprovedNoise.noise p)).
Proof.
  unfold Chunk.generateTiles.
  apply Forall_fmap, Forall_forall. intros ly _.
  apply Forall_fmap, Forall_forall. intros lx _. simpl.
  destruct (tileValue_bounded p (Chunk.worldCoord chunkX size (Z.of_nat lx))
              (Chunk.worldCoord chunkY size (Z.of_nat ly))) as [Hlo Hhi].
  split; [done|]. split; [done|]. unfold norm. split.
  - apply Qle_shift_div_l; lra.
  - apply Qle_shift_div_r; lra.
Qed.

(** * Further properties of the terrain *)

Section TerrainMore.

Implicit Types (T : Terrain.t) (cx cy : Z).

Lemma run_fresh_inv (tileSize chunkSize : Z) (noise : Q → Q → Q)
    (ops : list Op) :
  coherent (run (Terrain.new tileSize chunkSize noise) ops)
  ∧ Terrain.chunkSize (run (Terrain.new tileSize chunkSize noise) ops)
    = chunkSize
  ∧ Terrain.noise (run (Terrain.new tileSize chunkSize noise) ops) = noise.
Proof.
  rewrite run_calls.
  destruct (coherent_new tileSize chunkSize noise) as [Hc Hn].
  destruct (getChunk_seq_inv _
              (ops ≫= requested
                 (Terrain.chunkSize (Terrain.new tileSize chunkSize noise)))
              Hc Hn) as (H1 & _ & _ & _ & _ & H2 & H3).
  done.
Qed.

Lemma getChunk_seq_grows T (calls : list (Z * Z)) :
  Terrain.store T `prefix_of` Terrain.store (getChunk_seq T calls)
  ∧ Terrain.chunks T ⊆ Terrain.chunks (getChunk_seq T calls).
Proof.
  revert T. induction calls as [|[a b] calls IH]; intros T; [done|].
  rewrite getChunk_seq_cons.
  destruct (IH (Terrain.getChunk T a b).2) as [H1 H2].
  destruct (getChunk_grows T a b) as [G1 G2].
  split; by etrans.
Qed.

(** Calls for cached pairs change nothing. *)
Lemma getChunk_seq_cached_id T (calls : list (Z * Z)) :
  (∀ c, c ∈ calls → is_Some (Terrain.chunks T !! Terrain.key c.1 c.2)) →
  getChunk_seq T calls = T.
Proof.
  induction calls as [|[a b] calls IH]; intros H; [done|].
  rewrite getChunk_seq_cons.
  destruct (H (a, b)) as [l Hl]; [apply list_elem_of_here|]. simpl in Hl.
  rewrite (getChunk_hit T a b l Hl). cbn [snd].
  apply IH. intros c Hc. apply H. by apply list_elem_of_further.
Qed.


Lemma window_shift (a b : Z) :
  Terrain.window a b = (λ d : Z * Z, (a + d.1, b + d.2)) <$> Terrain.window 0 0.
Proof. reflexivity. Qed.

Lemma window_NoDup (a b : Z) :
  NoDup (Terrain.window a b) ∧ length (Terrain.window a b) = 49%nat.
Proof.
  rewrite window_shift. split; [|by rewrite length_fmap].
  apply NoDup_fmap_2.
  - intros [x1 y1] [x2 y2] [= H1 H2]. f_equal; lia.
  - apply (bool_decide_unpack (NoDup (Terrain.window 0 0))).
    vm_compute. exact I.
Qed.

End TerrainMore.

(** X8.  The world origin, where [Game] puts the player, is walkable for
    every noise table and after any history of the terrain: its height is
    exactly 0 (every octave samples the lattice point (0, 0)), its norm is
    1/2, and that is the fourth colour of [getColor]. *)
Theorem origin_is_walkable (p : list Z) (tileSize : Z) (ops : list Op) :
  (Chunk.tileValue (ImprovedNoise.noise p) 0 0 == 0)%Q
  ∧ (Terrain.getValue
       (run (Terrain.new tileSize 16 (ImprovedNoise.noise p)) ops) 0 0).1
    = Ok (Chunk.tileValue (ImprovedNoise.noise p) 0 0)
  ∧ (Terrain.isPositionWalkable
       (run (Terrain.new tileSize 16 (ImprovedNoise.noise p)) ops) 0 0).1
    = Ok true
  ∧ Terrain.getColor (Chunk.tileValue (ImprovedNoise.noise p) 0 0) = "#669933".
Proof.
  pose proof (tileValue_origin p) as H0.
  destruct (run_fresh_inv tileSize 16 (ImprovedNoise.noise p) ops)
    as (Hc & Hs & Hn).
  assert (norm (Chunk.tileValue (ImprovedNoise.noise p) 0 0) == 1 # 2)%Q as Hnorm.
  { unfold norm. rewrite H0. reflexivity. }
  split; [done|]. split; [|split].
  - rewrite getValue_world_tile by done. by rewrite Hn.
  - rewrite walkable_total_16 by done. rewrite Hn. f_equal.
    apply geb_true. change (JS.floor 0) with 0. rewrite Hnorm. lra.
  - unfold Terrain.getColor.
    destruct (classify_intervals (Chunk.tileValue (ImprovedNoise.noise p) 0 0))
      as (_ & _ & _ & [_ Hd] & _).
    rewrite Hd; [done|]. rewrite Hnorm. split; lra.
Qed.

(** X9.  The cache never evicts and never rebinds: after any run of
    operations every chunk object is where it was in the store, and every
    key still leads to the object it led to. *)
Theorem cache_only_grows (T : Terrain.t) (ops : list Op) :
  Terrain.store T `prefix_of` Terrain.store (run T ops)
  ∧ (∀ k l, Terrain.chunks T !! k = Some l →
       Terrain.chunks (run T ops) !! k = Some l)
  ∧ (∀ l c, Terrain.store T !! l = Some c →
       Terrain.store (run T ops) !! l = Some c)
  ∧ (length (Terrain.store T) <= length (Terrain.store (run T ops)))%nat.
Proof.
  rewrite run_calls.
  destruct (getChunk_seq_grows T (ops ≫= requested (Terrain.chunkSize T)))
    as [Hp Hs].
  split; [done|]. split; [|split].
  - intros k l Hk. by eapply lookup_weaken.
  - intros l c Hl. by eapply prefix_lookup_Some.
  - by apply prefix_length.
Qed.


(** X11.  Once a frame has been drawn, a further frame whose camera is in
    the same chunk leaves the terrain exactly as it is, and so does a
    height query for any point whose chunk is in view: nothing is built
    and nothing else changes. *)
Theorem frame_in_view_is_idle (T : Terrain.t)
    (cameraX cameraY cameraX' cameraY' : Q)
    (HsameX : Terrain.chunkCoord (Terrain.chunkSize T) cameraX'
              = Terrain.chunkCoord (Terrain.chunkSize T) cameraX)
    (HsameY : Terrain.chunkCoord (Terrain.chunkSize T) cameraY'
              = Terrain.chunkCoord (Terrain.chunkSize T) cameraY) :
  (Terrain.draw (Terrain.draw T cameraX cameraY).2 cameraX' cameraY').2
  = (Terrain.draw T cameraX cameraY).2
  ∧ (∀ x y,
       in_view (Terrain.chunkCoord (Terrain.chunkSize T) cameraX)
               (Terrain.chunkCoord (Terrain.chunkSize T) cameraY)
               (Terrain.chunkCoord (Terrain.chunkSize T) x)
               (Terrain.chunkCoord (Terrain.chunkSize T) y) →
       (Terrain.getValue (Terrain.draw T cameraX cameraY).2 x y).2
       = (Terrain.draw T cameraX cameraY).2).
Proof.
  set (W := Terrain.window (Terrain.chunkCoord (Terrain.chunkSize T) cameraX)
                           (Terrain.chunkCoord (Terrain.chunkSize T) cameraY)).
  assert ((Terrain.draw T cameraX cameraY).2 = getChunk_seq T W) as E
    by (unfold Terrain.draw; apply drawLoop_state).
  rewrite E.
  destruct (getChunk_seq_chunkSize T W) as (Hs & _).
  assert (∀ c, c ∈ W →
            is_Some (Terrain.chunks (getChunk_seq T W) !! Terrain.key c.1 c.2))
    as Hcached.
  { intros [a b] Hc. apply getChunk_seq_cached. by right. }
  split.
  - unfold Terrain.draw at 1. rewrite drawLoop_state, Hs, HsameX, HsameY.
    by apply getChunk_seq_cached_id.
  - intros x y Hv. rewrite getValue_state, Hs.
    apply window_in_view in Hv. fold W in Hv.
    destruct (Hcached _ Hv) as [l Hl]. cbn [fst snd] in Hl.
    rewrite (getChunk_hit _ _ _ l Hl). reflexivity.
Qed.

Lemma frame_in_view_is_idle_witness :
  (Terrain.draw (Terrain.draw (Terrain.new 20 16 spike) 0 0).2
                (1 # 2) (31 # 2)).2
  = (Terrain.draw (Terrain.new 20 16 spike) 0 0).2.
Proof.
  assert (Terrain.chunkCoord 16 (1 # 2) = Terrain.chunkCoord 16 0) as H1
    by reflexivity.
  assert (Terrain.chunkCoord 16 (31 # 2) = Terrain.chunkCoord 16 0) as H2
    by reflexivity.
  exact (proj1 (frame_in_view_is_idle (Terrain.new 20 16 spike)
                  0 0 (1 # 2) (31 # 2) H1 H2)).
Defined.

(** X12.  On a terrain of chunk size 16 a height query returns the height
    of the world tile under the point, whatever operations ran before: the
    answer depends neither on the history of the cache nor on where inside
    the tile the point lies, and over the gradient noise it is in
    [-1, 1]. *)
Theorem getValue_history_independent (tileSize : Z) (noise : Q → Q → Q)
    (ops : list Op) (x y : Q) :
  (Terrain.getValue (run (Terrain.new tileSize 16 noise) ops) x y).1
  = Ok (Chunk.tileValue noise (JS.floor x) (JS.floor y))
  ∧ (∀ ops' x' y', JS.floor x' = JS.floor x → JS.floor y' = JS.floor y →
       (Terrain.getValue (run (Terrain.new tileSize 16 noise) ops') x' y').1
       = (Terrain.getValue (run (Terrain.new tileSize 16 noise) ops) x y).1)
  ∧ (∀ p, noise = ImprovedNoise.noise p →
       ∃ v, (Terrain.getValue (run (Terrain.new tileSize 16 noise) ops) x y).1
            = Ok v ∧ (-1 <= v)%Q ∧ (v <= 1)%Q).
Proof.
  assert (∀ ops x y,
            (Terrain.getValue (run (Terrain.new tileSize 16 noise) ops) x y).1
            = Ok (Chunk.tileValue noise (JS.floor x) (JS.floor y))) as H.
  { intros ops0 x0 y0.
    destruct (run_fresh_inv tileSize 16 noise ops0) as (Hc & Hs & Hn).
    rewrite getValue_world_tile by done. by rewrite Hn. }
  split; [apply H|]. split.
  - intros ops' x' y' Hx Hy. rewrite !H. by rewrite Hx, Hy.
  - intros p ->. eexists. split; [apply H|]. apply tileValue_bounded.
Qed.

(** X13.  The cache key separates chunk pairs: two pairs have the same key
    string exactly when they are the same pair. *)
Theorem cache_key_separates (cx cy cx' cy' : Z) :
  Terrain.key cx cy = Terrain.key cx' cy' ↔ cx = cx' ∧ cy = cy'.
Proof.
  split; [apply key_inj | by intros [-> ->]].
Qed.

(** * The player and the keyboard: properties *)



Section Keyboard.

Lemma keydown_cases (key : string) (d : Q * Q) :
  (key = "w" ∧ Keys.keydown key d = (d.1, (-1)%Q))
  ∨ (key = "s" ∧ Keys.keydown key d = (d.1, 1%Q))
  ∨ (key = "a" ∧ Keys.keydown key d = ((-1)%Q, d.2))
  ∨ (key = "d" ∧ Keys.keydown key d = (1%Q, d.2))
  ∨ (key ≠ "w" ∧ key ≠ "s" ∧ key ≠ "a" ∧ key ≠ "d" ∧ Keys.keydown key d = d).
Proof.
  unfold Keys.keydown. destruct d as [dx dy].
  repeat case_bool_decide; subst; try discriminate; cbn [fst snd]; auto 10.
Qed.

Lemma keyup_cases (key : string) (d : Q * Q) :
  Keys.keyup key d = d
  ∨ (key = "w" ∧ (d.2 == -1)%Q ∧ Keys.keyup key d = (d.1, 0%Q))
  ∨ (key = "s" ∧ (d.2 == 1)%Q ∧ Keys.keyup key d = (d.1, 0%Q))
  ∨ (key = "a" ∧ (d.1 == -1)%Q ∧ Keys.keyup key d = (0%Q, d.2))
  ∨ (key = "d" ∧ (d.1 == 1)%Q ∧ Keys.keyup key d = (0%Q, d.2)).
Proof.
  unfold Keys.keyup. destruct d as [dx dy]. cbn [fst snd].
  repeat case_bool_decide; subst; try discriminate; cbn [andb fst snd];
    repeat match goal with
    | |- context [Qeq_bool ?a ?b] =>
        let E := fresh "E" in
        destruct (Qeq_bool a b) eqn:E; [apply Qeq_bool_eq in E|]; cbn [fst snd]
    end; auto 10.
Qed.

Lemma keyup_v2_cases (key : string) (d : Q * Q) :
  ((key = "w" ∨ key = "s") ∧ Keys.keyup_v2 key d = (d.1, 0%Q))
  ∨ ((key = "a" ∨ key = "d") ∧ Keys.keyup_v2 key d = (0%Q, d.2))
  ∨ (key ≠ "w" ∧ key ≠ "s" ∧ key ≠ "a" ∧ key ≠ "d" ∧ Keys.keyup_v2 key d = d).
Proof.
  unfold Keys.keyup_v2. destruct d as [dx dy].
  repeat case_bool_decide; subst; try discriminate; cbn [orb fst snd]; auto 10.
Qed.

Lemma keys_unit_step (key : string) (d : Q * Q) :
  unit_step d.1 → unit_step d.2 →
  unit_step (Keys.keydown key d).1 ∧ unit_step (Keys.keydown key d).2
  ∧ unit_step (Keys.keyup key d).1 ∧ unit_step (Keys.keyup key d).2
  ∧ unit_step (Keys.keyup_v2 key d).1 ∧ unit_step (Keys.keyup_v2 key d).2.
Proof.
  intros H1 H2. unfold unit_step in *.
  split; [|split]; [| |split; [|split; [|split]]].
  - destruct (keydown_cases key d) as [[_ ->]|[[_ ->]|[[_ ->]|[[_ ->]|(_ & _ & _ & _ & ->)]]]];
      cbn [fst snd]; auto.
  - destruct (keydown_cases key d) as [[_ ->]|[[_ ->]|[[_ ->]|[[_ ->]|(_ & _ & _ & _ & ->)]]]];
      cbn [fst snd]; auto.
  - destruct (keyup_cases key d) as [->|[(_ & _ & ->)|[(_ & _ & ->)|[(_ & _ & ->)|(_ & _ & ->)]]]];
      cbn [fst snd]; auto.
  - destruct (keyup_cases key d) as [->|[(_ & _ & ->)|[(_ & _ & ->)|[(_ & _ & ->)|(_ & _ & ->)]]]];
      cbn [fst snd]; auto.
  - destruct (keyup_v2_cases key d) as [[_ ->]|[[_ ->]|(_ & _ & _ & _ & ->)]];
      cbn [fst snd]; auto.
  - destruct (keyup_v2_cases key d) as [[_ ->]|[[_ ->]|(_ & _ & _ & _ & ->)]];
      cbn [fst snd]; auto.
Qed.

End Keyboard.

(** X15.  The key handlers keep both components of the direction in
    {-1, 0, 1}; a key other than w, a, s, d changes nothing.  Releasing a
    key in the first variant stops the motion only when the motion is the
    one that key starts: while moving down, releasing w changes nothing,
    whereas in the second variant it stops the vertical motion. *)
Theorem key_handlers (key : string) (d : Q * Q)
    (Hx : unit_step d.1) (Hy : unit_step d.2) :
  (unit_step (Keys.keydown key d).1 ∧ unit_step (Keys.keydown key d).2
   ∧ unit_step (Keys.keyup key d).1 ∧ unit_step (Keys.keyup key d).2
   ∧ unit_step (Keys.keyup_v2 key d).1 ∧ unit_step (Keys.keyup_v2 key d).2)
  ∧ (key ≠ "w" → key ≠ "s" → key ≠ "a" → key ≠ "d" →
     Keys.keydown key d = d ∧ Keys.keyup key d = d ∧ Keys.keyup_v2 key d = d)
  ∧ (d.2 = 1%Q →
     Keys.keyup "w" d = d ∧ Keys.keyup_v2 "w" d = (d.1, 0%Q))
  ∧ (d.2 = (-1)%Q → Keys.keyup "w" d = (d.1, 0%Q)).
Proof.
  split; [by apply keys_unit_step|]. split; [|split].
  - intros Hw Hs Ha Hd. split; [|split].
    + by destruct (keydown_cases key d)
        as [[? _]|[[? _]|[[? _]|[[? _]|(_ & _ & _ & _ & ->)]]]].
    + by destruct (keyup_cases key d)
        as [->|[(? & _)|[(? & _)|[(? & _)|(? & _)]]]].
    + by destruct (keyup_v2_cases key d) as [[[?|?] _]|[[[?|?] _]|(_ & _ & _ & _ & ->)]].
  - intros E. destruct d as [dx dy]. cbn [snd] in E. subst dy.
    split; [|reflexivity].
    unfold Keys.keyup, unit_step in *. cbn [fst snd] in *.
    destruct Hx as [-> | [-> | ->]]; reflexivity.
  - intros E. destruct d as [dx dy]. cbn [snd] in E. subst dy.
    unfold Keys.keyup, unit_step in *. cbn [fst snd] in *.
    destruct Hx as [-> | [-> | ->]]; reflexivity.
Qed.

Lemma key_handlers_witness :
  Keys.keyup "w" (0%Q, 1%Q) = (0%Q, 1%Q)
  ∧ Keys.keyup_v2 "w" (0%Q, 1%Q) = (0%Q, 0%Q).
Proof.
  assert (unit_step (0%Q, 1%Q).1) as H1 by (right; left; reflexivity).
  assert (unit_step (0%Q, 1%Q).2) as H2 by (right; right; reflexivity).
  exact (proj1 (proj2 (proj2 (key_handlers "w" (0%Q, 1%Q) H1 H2))) eq_refl).
Defined.

Section PlayerMoves.

Implicit Types (T : Terrain.t) (P : Player.t).

Lemma getChunk_seq_coherent T (calls : list (Z * Z)) :
  coherent T → coherent (getChunk_seq T calls).
Proof.
  revert T. induction calls as [|[a b] calls IH]; intros T H; [done|].
  rewrite getChunk_seq_cons. by apply IH, getChunk_coherent.
Qed.

Lemma game_terrain_step (N : Q → Q → Q) T (o : Op) :
  game_terrain N T → game_terrain N (step T o).
Proof.
  intros (Hc & Hs & Hn). rewrite step_calls.
  destruct (getChunk_seq_chunkSize T (requested (Terrain.chunkSize T) o))
    as (Es & En & _).
  split; [by apply getChunk_seq_coherent|]. split; congruence.
Qed.

Lemma game_terrain_walkable (N : Q → Q → Q) T (x y : Q) :
  game_terrain N T →
  Terrain.isPositionWalkable T x y
  = (Ok (JS.geb (norm (Chunk.tileValue N (JS.floor x) (JS.floor y))) (43 # 100)),
     step T (OpIsPositionWalkable x y)).
Proof.
  intros (Hc & Hs & Hn).
  rewrite (surjective_pairing (Terrain.isPositionWalkable T x y)).
  rewrite walkable_total_16 by done. by rewrite Hn.
Qed.

Lemma update_on_game_terrain (N : Q → Q → Q) T P (deltaTime : Q) :
  game_terrain N T →
  Player.update P deltaTime T
  = (Ok (if JS.geb (norm (Chunk.tileValue N
                           (JS.floor (Player.newX P deltaTime))
                           (JS.floor (Player.newY P deltaTime))))
                   (43 # 100)
         then Player.mk (Player.newX P deltaTime) (Player.newY P deltaTime)
                        (Player.moveDir P) (Player.speed P)
         else P),
     step T (OpIsPositionWalkable (Player.newX P deltaTime)
                                  (Player.newY P deltaTime))).
Proof.
  intros H. unfold Player.update.
  rewrite (game_terrain_walkable N T _ _ H).
  by destruct (JS.geb _ _).
Qed.

End PlayerMoves.

(** X16.  On the terrain of a game (chunk size 16, any history) an update
    of the player never raises and is all or nothing: if the tile under
    the proposed position is walkable the player takes the whole step,
    along both axes, and otherwise stays where it is (it does not slide
    along the obstacle).  With a direction from the key handlers, speed 50
    and a frame time that is not negative, it moves at most
    [deltaTime / 400] tiles along each axis. *)
Theorem player_update_all_or_nothing (tileSize : Z) (noise : Q → Q → Q)
    (ops : list Op) (P : Player.t) (deltaTime : Q)
    (Hdt : (0 <= deltaTime)%Q)
    (Hx : unit_step (Player.moveDir P).1)
    (Hy : unit_step (Player.moveDir P).2)
    (Hspeed : Player.speed P = 50%Q) :
  ∃ P',
    (Player.update P deltaTime (run (Terrain.new tileSize 16 noise) ops)).1
    = Ok P'
    ∧ ((walkable_tile noise (Player.newX P deltaTime) (Player.newY P deltaTime)
        ∧ Player.x P' = Player.newX P deltaTime
        ∧ Player.y P' = Player.newY P deltaTime)
       ∨ (¬ walkable_tile noise (Player.newX P deltaTime)
                                (Player.newY P deltaTime)
          ∧ P' = P))
    ∧ Player.moveDir P' = Player.moveDir P
    ∧ Player.speed P' = Player.speed P
    ∧ (- (deltaTime / 400) <= Player.x P' - Player.x P)%Q
    ∧ (Player.x P' - Player.x P <= deltaTime / 400)%Q
    ∧ (- (deltaTime / 400) <= Player.y P' - Player.y P)%Q
    ∧ (Player.y P' - Player.y P <= deltaTime / 400)%Q.
Proof.
  assert (game_terrain noise (run (Terrain.new tileSize 16 noise) ops)) as HT
    by apply run_fresh_inv.
  rewrite (update_on_game_terrain noise _ P deltaTime HT). cbn [fst].
  assert (0 <= deltaTime / 400)%Q as Hq by (apply Qle_shift_div_l; lra).
  assert (∀ c, unit_step c →
            (- (deltaTime / 400)
             <= c * Player.moveStep P deltaTime / TILE_SIZE)%Q
            ∧ (c * Player.moveStep P deltaTime / TILE_SIZE
               <= deltaTime / 400)%Q) as Hstep.
  { intros c Hc. unfold Player.moveStep, TILE_SIZE. rewrite Hspeed.
    assert (c * (50 * deltaTime / 1000) / 20 == c * (deltaTime / 400))%Q
      as -> by (field; lra).
    destruct Hc as [-> | [-> | ->]]; split; lra. }
  destruct (Hstep _ Hx) as [Hx1 Hx2]. destruct (Hstep _ Hy) as [Hy1 Hy2].
  destruct (JS.geb _ _) eqn:E.
  - eexists. split; [reflexivity|]. cbn [Player.x Player.y Player.moveDir Player.speed].
    split; [left; split; [by apply geb_true|done]|].
    split; [done|]. split; [done|].
    unfold Player.newX, Player.newY. repeat split; lra.
  - exists P. split; [reflexivity|].
    split; [right; split; [|done]|].
    { unfold walkable_tile. intros H%geb_true. congruence. }
    split; [done|]. split; [done|]. repeat split; lra.
Qed.

Lemma player_update_all_or_nothing_witness :
  ∃ P',
    (Player.update (Player.new 0 0) 16
       (run (Terrain.new 20 16 (ImprovedNoise.noise (ImprovedNoise.new rnd_ramp)))
            [OpDraw 0 0])).1
    = Ok P'
    ∧ Player.speed P' = 50%Q.
Proof.
  assert (0 <= 16)%Q as H0 by lra.
  assert (unit_step (Player.moveDir (Player.new 0 0)).1) as H1
    by (right; left; reflexivity).
  assert (unit_step (Player.moveDir (Player.new 0 0)).2) as H2
    by (right; left; reflexivity).
  assert (Player.speed (Player.new 0 0) = 50%Q) as H3 by reflexivity.
  destruct (player_update_all_or_nothing 20
              (ImprovedNoise.noise (ImprovedNoise.new rnd_ramp))
              [OpDraw 0 0] (Player.new 0 0) 16 H0 H1 H2 H3)
    as (P' & HP & _ & _ & Hs & _).
  exists P'. split; [exact HP | exact Hs].
Defined.

Lemma step_draw (T : Terrain.t) (cameraX cameraY : Q) :
  (Terrain.draw T cameraX cameraY).2 = step T (OpDraw cameraX cameraY).
Proof. unfold step. reflexivity. Qed.

Section GameRun.

Variable N : Q → Q → Q.

(** What holds of the player and the terrain throughout a game. *)
Lemma play_invariant (inputs : list Input) :
  ∀ (P : Player.t) (T : Terrain.t),
    game_terrain N T →
    walkable_tile N (Player.x P) (Player.y P) →
    unit_step (Player.moveDir P).1 → unit_step (Player.moveDir P).2 →
    ∃ P' T',
      play (P, T) inputs = Ok (P', T')
      ∧ game_terrain N T'
      ∧ walkable_tile N (Player.x P') (Player.y P')
      ∧ unit_step (Player.moveDir P').1 ∧ unit_step (Player.moveDir P').2
      ∧ Player.speed P' = Player.speed P.
Proof.
  induction inputs as [|i inputs IH]; intros P T HT Hw Hx Hy.
  - exists P, T. done.
  - assert (∀ P1 T1,
              game_terrain N T1 →
              walkable_tile N (Player.x P1) (Player.y P1) →
              unit_step (Player.moveDir P1).1 →
              unit_step (Player.moveDir P1).2 →
              Player.speed P1 = Player.speed P →
              ∃ P' T',
                play (P1, T1) inputs = Ok (P', T')
                ∧ game_terrain N T'
                ∧ walkable_tile N (Player.x P') (Player.y P')
                ∧ unit_step (Player.moveDir P').1
                ∧ unit_step (Player.moveDir P').2
                ∧ Player.speed P' = Player.speed P) as Hnext.
    { intros P1 T1 H1 H2 H3 H4 H5.
      destruct (IH P1 T1 H1 H2 H3 H4) as (P' & T' & E & G & W & X & Y & S).
      exists P', T'. rewrite <- H5. done. }
    destruct i as [key|key|deltaTime|o]; cbn [play input_step fst snd].
    + destruct (keys_unit_step key (Player.moveDir P) Hx Hy) as (K1 & K2 & _).
      by apply Hnext.
    + destruct (keys_unit_step key (Player.moveDir P) Hx Hy)
        as (_ & _ & K1 & K2 & _).
      by apply Hnext.
    + rewrite (update_on_game_terrain N T P deltaTime HT).
      destruct (JS.geb _ _) eqn:E.
      * apply Hnext;
          [by apply game_terrain_step | by apply geb_true | done | done | done].
      * apply Hnext; [by apply game_terrain_step | done | done | done | done].
    + destruct o as [x y|x y|v|cameraX cameraY].
      * pose proof (game_terrain_step N T (OpGetValue x y) HT) as HT'.
        destruct HT as (Hc & Hs & Hn).
        rewrite (surjective_pairing (Terrain.getValue T x y)).
        rewrite getValue_world_tile by done. by apply Hnext.
      * rewrite (game_terrain_walkable N T x y HT).
        apply Hnext; [by apply game_terrain_step | done | done | done | done].
      * by apply Hnext.
      * rewrite (step_draw T cameraX cameraY).
        apply Hnext; [|assumption|assumption|assumption|reflexivity].
        exact (game_terrain_step N T (OpDraw cameraX cameraY) HT).
Qed.

End GameRun.

(** X17.  Throughout a game the player stands on a walkable tile and no
    terrain query raises: from a terrain of chunk size 16 that starts
    empty and a player that starts on a walkable tile, after any sequence
    of key presses and releases, player updates with any frame times, and
    other uses of the terrain (the frame's draw, the monster's queries),
    the run has not raised, the tile under the player is not Water, and
    the player's direction components are in {-1, 0, 1}. *)
Theorem player_never_on_water (tileSize : Z) (noise : Q → Q → Q)
    (x0 y0 : Q) (inputs : list Input)
    (Hstart : walkable_tile noise x0 y0) :
  ∃ P T,
    play (Player.new x0 y0, Terrain.new tileSize 16 noise) inputs = Ok (P, T)
    ∧ walkable_tile noise (Player.x P) (Player.y P)
    ∧ Terrain.classify
        (Chunk.tileValue noise (JS.floor (Player.x P)) (JS.floor (Player.y P)))
      ≠ Water
    ∧ (Terrain.isPositionWalkable T (Player.x P) (Player.y P)).1 = Ok true
    ∧ unit_step (Player.moveDir P).1 ∧ unit_step (Player.moveDir P).2
    ∧ Player.speed P = 50%Q.
Proof.
  destruct (play_invariant noise inputs (Player.new x0 y0)
              (Terrain.new tileSize 16 noise))
    as (P & T & Hplay & HT & Hw & Hx & Hy & Hs).
  - split; [apply coherent_new | done].
  - done.
  - right; left; reflexivity.
  - right; left; reflexivity.
  - exists P, T. split; [done|]. split; [done|]. split; [|split].
    + destruct (classify_intervals
                  (Chunk.tileValue noise (JS.floor (Player.x P))
                                         (JS.floor (Player.y P))))
        as [Hwater _].
      intros Hc%Hwater. unfold walkable_tile in Hw. lra.
    + rewrite (game_terrain_walkable noise T _ _ HT). cbn [fst]. f_equal.
      by apply geb_true.
    + done.
Qed.

Lemma player_never_on_water_witness :
  ∃ P T,
    play (Player.new 0 0,
          Terrain.new 20 16 (ImprovedNoise.noise (ImprovedNoise.new rnd_ramp)))
         [KeyDown "d"; Update 16; Other (OpDraw 0 0); KeyUp "d"]
    = Ok (P, T)
    ∧ walkable_tile (ImprovedNoise.noise (ImprovedNoise.new rnd_ramp))
                    (Player.x P) (Player.y P).
Proof.
  assert (walkable_tile (ImprovedNoise.noise (ImprovedNoise.new rnd_ramp)) 0 0)
    as H.
  { unfold walkable_tile. change (JS.floor 0) with 0.
    assert (norm (Chunk.tileValue
                    (ImprovedNoise.noise (ImprovedNoise.new rnd_ramp)) 0 0)
            == 1 # 2)%Q as ->
      by (unfold norm; rewrite tileValue_origin; reflexivity).
    lra. }
  destruct (player_never_on_water 20
              (ImprovedNoise.noise (ImprovedNoise.new rnd_ramp)) 0 0
              [KeyDown "d"; Update 16; Other (OpDraw 0 0); KeyUp "d"] H)
    as (P & T & Hplay & Hw & _).
  exists P, T. split; [exact Hplay | exact Hw].
Defined.

(** * Painting: properties *)

Section PaintingFacts.

Variables cameraX cameraY canvasWidth canvasHeight : Q.

Lemma bind_singleton_map {A B} (g : A → B) (l : list A) :
  (x ← l; [g x]) = map g l.
Proof. induction l as [|a l IH]; [done|]. cbn. by rewrite IH. Qed.

Lemma bind_length_const {A B} (f : A → list B) (l : list A) (k : nat) :
  (∀ a, a ∈ l → length (f a) = k) → length (l ≫= f) = (length l * k)%nat.
Proof.
  induction l as [|a l IH]; intros H; [done|].
  cbn. rewrite length_app, IH, H.
  - lia.
  - apply list_elem_of_here.
  - intros b Hb. apply H. by apply list_elem_of_further.
Qed.

Lemma chunkRects_length (noise : Q → Q → Q) (tileSize size : Z) (c : Z * Z) :
  length (chunkRects noise tileSize cameraX cameraY canvasWidth canvasHeight
                     size c)
  = (Z.to_nat size * Z.to_nat size)%nat.
Proof.
  unfold chunkRects.
  rewrite (bind_length_const _ _ (Z.to_nat size)); [by rewrite length_seq|].
  intros y _. by rewrite bind_singleton_map, length_map, length_seq.
Qed.

(** A constructed chunk paints the squares of its cells and does not
    raise. *)
Lemma Chunk_drawRows_new (chunkX chunkY tileSize size : Z)
    (noise : Q → Q → Q) (ys : list nat) :
  (∀ y, y ∈ ys → (y < Z.to_nat size)%nat) →
  Painting.Chunk_drawRows (Chunk.new chunkX chunkY tileSize size noise)
    cameraX cameraY canvasWidth canvasHeight getColorCell ys
  = (y ← ys;
     x ← seq 0 (Z.to_nat size);
     [tileRect noise tileSize cameraX cameraY canvasWidth canvasHeight
               (Chunk.worldCoord chunkX size (Z.of_nat x))
               (Chunk.worldCoord chunkY size (Z.of_nat y))],
     Ok tt).
Proof.
  induction ys as [|y ys IH]; intros H; [done|].
  cbn [Painting.Chunk_drawRows].
  assert (y < Z.to_nat size)%nat as Hy by (apply H, list_elem_of_here).
  cbn [Chunk.tiles Chunk.new Chunk.size]. unfold Chunk.generateTiles at 1.
  rewrite list_lookup_fmap, lookup_seq_lt by done. cbn [fmap option_fmap option_map].
  rewrite IH by (intros y' Hy'; apply H; by apply list_elem_of_further).
  cbn [mbind list_bind]. f_equal. f_equal.
  rewrite bind_singleton_map. apply map_ext_in. intros x Hx%in_seq.
  unfold Painting.cellRect, tileRect.
  rewrite list_lookup_fmap, lookup_seq_lt by lia. reflexivity.
Qed.

Lemma Chunk_draw_new (chunkX chunkY tileSize size : Z) (noise : Q → Q → Q) :
  Painting.Chunk_draw (Chunk.new chunkX chunkY tileSize size noise)
    cameraX cameraY canvasWidth canvasHeight getColorCell
  = (chunkRects noise tileSize cameraX cameraY canvasWidth canvasHeight size
                (chunkX, chunkY), Ok tt).
Proof.
  unfold Painting.Chunk_draw. cbn [Chunk.size Chunk.new].
  apply Chunk_drawRows_new. intros y Hy%elem_of_seq. lia.
Qed.

Lemma Terrain_drawLoop_coherent (cs : list (Z * Z)) :
  ∀ T : Terrain.t,
    coherent T →
    Painting.Terrain_drawLoop T cameraX cameraY canvasWidth canvasHeight cs
    = ((cs ≫= chunkRects (Terrain.noise T) (Terrain.tileSize T)
                 cameraX cameraY canvasWidth canvasHeight 16,
        Ok tt),
       getChunk_seq T cs).
Proof.
  induction cs as [|[a b] cs IH]; intros T Hc; [reflexivity|].
  cbn [Painting.Terrain_drawLoop fst snd]. rewrite getChunk_seq_cons.
  destruct (getChunk_returns T a b Hc) as (l & Hl & _ & Hs).
  destruct (getChunk_fields T a b) as (Ft & _ & Fn).
  pose proof (getChunk_coherent T a b Hc) as Hc'.
  destruct (Terrain.getChunk T a b) as [chunk T'] eqn:E.
  cbn [fst snd] in *. subst chunk. cbn [mbind option_bind]. rewrite Hs.
  rewrite Chunk_draw_new, (IH T' Hc'), Ft, Fn. reflexivity.
Qed.

End PaintingFacts.

Section FrameFacts.

Lemma chunkRects_elem (noise : Q → Q → Q) (tileSize : Z)
    (cameraX cameraY canvasWidth canvasHeight : Q) (c : Z * Z)
    (r : Canvas.Rect) :
  r ∈ chunkRects noise tileSize cameraX cameraY canvasWidth canvasHeight 16 c
  ↔ ∃ x y, 0 <= x < 16 ∧ 0 <= y < 16
      ∧ r = tileRect noise tileSize cameraX cameraY canvasWidth canvasHeight
                     (c.1 * 16 + x) (c.2 * 16 + y).
Proof.
  unfold chunkRects. rewrite list_elem_of_bind.
  setoid_rewrite list_elem_of_bind. setoid_rewrite list_elem_of_singleton.
  setoid_rewrite elem_of_seq. unfold Chunk.worldCoord. split.
  - intros (y & (x & -> & Hx) & Hy). exists (Z.of_nat x), (Z.of_nat y).
    change (Z.to_nat 16) with 16%nat in *. split; [lia|]. split; [lia|done].
  - intros (x & y & Hx & Hy & ->). exists (Z.to_nat y). split.
    + exists (Z.to_nat x). rewrite !Z2Nat.id by lia. split; [done|].
      change (Z.to_nat 16) with 16%nat. lia.
    + change (Z.to_nat 16) with 16%nat. lia.
Qed.

Lemma run_tileSize (tileSize chunkSize : Z) (noise : Q → Q → Q)
    (ops : list Op) :
  Terrain.tileSize (run (Terrain.new tileSize chunkSize noise) ops) = tileSize.
Proof. rewrite run_calls. apply getChunk_seq_chunkSize. Qed.

End FrameFacts.

(** X18.  On the terrain of a game (chunk size 16, any history) a frame
    never raises and paints 49 * 256 squares of edge [tileSize]: exactly the
    world tiles of the 112 x 112 block made of the 7 x 7 chunks around the
    camera's chunk, the tile [(wx, wy)] at
    [((wx - camera.x) * tileSize + canvas.width / 2,
      (wy - camera.y) * tileSize + canvas.height / 2)]
    in the colour of its height, so the squares form one gapless grid
    across chunk borders; the terrain ends in the state that the cache
    part of [draw] gives. *)
Theorem frame_paints_window (tileSize : Z) (noise : Q → Q → Q) (ops : list Op)
    (cameraX cameraY canvasWidth canvasHeight : Q) :
  ∃ rects,
    Painting.Terrain_draw (run (Terrain.new tileSize 16 noise) ops)
      cameraX cameraY canvasWidth canvasHeight
    = ((rects, Ok tt),
       (Terrain.draw (run (Terrain.new tileSize 16 noise) ops)
                     cameraX cameraY).2)
    ∧ length rects = (49 * 256)%nat
    ∧ (∀ r, r ∈ rects ↔
         ∃ wx wy,
           16 * (Terrain.chunkCoord 16 cameraX - 3) <= wx
             < 16 * (Terrain.chunkCoord 16 cameraX + 4)
           ∧ 16 * (Terrain.chunkCoord 16 cameraY - 3) <= wy
               < 16 * (Terrain.chunkCoord 16 cameraY + 4)
           ∧ r = tileRect noise tileSize cameraX cameraY
                          canvasWidth canvasHeight wx wy)
    ∧ (∀ r, r ∈ rects →
         Canvas.width r = inject_Z tileSize
         ∧ Canvas.height r = inject_Z tileSize).
Proof.
  set (T := run (Terrain.new tileSize 16 noise) ops).
  destruct (run_fresh_inv tileSize 16 noise ops) as (Hc & Hs & Hn).
  pose proof (run_tileSize tileSize 16 noise ops) as Ht. fold T in Hc, Hs, Hn, Ht.
  set (W := Terrain.window (Terrain.chunkCoord 16 cameraX)
                           (Terrain.chunkCoord 16 cameraY)).
  exists (W ≫= chunkRects noise tileSize cameraX cameraY
                  canvasWidth canvasHeight 16).
  assert (∀ r, r ∈ W ≫= chunkRects noise tileSize cameraX cameraY
                          canvasWidth canvasHeight 16 ↔
            ∃ wx wy,
              16 * (Terrain.chunkCoord 16 cameraX - 3) <= wx
                < 16 * (Terrain.chunkCoord 16 cameraX + 4)
              ∧ 16 * (Terrain.chunkCoord 16 cameraY - 3) <= wy
                  < 16 * (Terrain.chunkCoord 16 cameraY + 4)
              ∧ r = tileRect noise tileSize cameraX cameraY
                             canvasWidth canvasHeight wx wy) as Helem.
  { intros r. rewrite list_elem_of_bind. split.
    - intros ([cx cy] & (x & y & Hx & Hy & ->)%chunkRects_elem & Hin).
      apply window_in_view in Hin. destruct Hin as [Vx Vy].
      unfold Terrain.viewRadius in *. cbn [fst snd].
      exists (cx * 16 + x), (cy * 16 + y). split; [lia|]. split; [lia|done].
    - intros (wx & wy & Hx & Hy & ->).
      exists (wx / 16, wy / 16). split.
      + apply chunkRects_elem. exists (wx mod 16), (wy mod 16). cbn [fst snd].
        pose proof (Z.mod_pos_bound wx 16 ltac:(lia)).
        pose proof (Z.mod_pos_bound wy 16 ltac:(lia)).
        pose proof (Z.div_mod wx 16 ltac:(lia)).
        pose proof (Z.div_mod wy 16 ltac:(lia)).
        split; [lia|]. split; [lia|]. f_equal; lia.
      + apply window_in_view. unfold in_view, Terrain.viewRadius.
        pose proof (Z.mod_pos_bound wx 16 ltac:(lia)).
        pose proof (Z.mod_pos_bound wy 16 ltac:(lia)).
        pose proof (Z.div_mod wx 16 ltac:(lia)).
        pose proof (Z.div_mod wy 16 ltac:(lia)).
        split; lia. }
  split; [|split; [|split]].
  - unfold Painting.Terrain_draw, Terrain.draw.
    rewrite drawLoop_state, Terrain_drawLoop_coherent by done.
    rewrite Hs, Hn, Ht. reflexivity.
  - rewrite (bind_length_const _ _ 256).
    + unfold W. destruct (window_NoDup (Terrain.chunkCoord 16 cameraX)
                            (Terrain.chunkCoord 16 cameraY)) as [_ ->].
      reflexivity.
    + intros c _. by rewrite chunkRects_length.
  - done.
  - intros r (wx & wy & _ & _ & ->)%Helem. done.
Qed.

(** X19.  The player's marker is a [TILE_SIZE] square whose centre is the
    player's point on the screen; that point lies in the square that a
    frame of tile size 20 paints for the tile the player stands on; and
    when the camera is at the player the centre of the marker is the
    centre of the canvas. *)
Theorem player_marker_on_tile (noise : Q → Q → Q) (P : Player.t)
    (cameraX cameraY canvasWidth canvasHeight : Q) :
  let marker :=
    Painting.Player_draw P cameraX cameraY canvasWidth canvasHeight in
  let tile :=
    tileRect noise 20 cameraX cameraY canvasWidth canvasHeight
             (JS.floor (Player.x P)) (JS.floor (Player.y P)) in
  Canvas.fill marker = "red"
  ∧ (Canvas.width marker == 20)%Q ∧ (Canvas.height marker == 20)%Q
  ∧ (Canvas.left marker + Canvas.width marker / 2
     == (Player.x P - cameraX) * 20 + canvasWidth / 2)%Q
  ∧ (Canvas.top marker + Canvas.height marker / 2
     == (Player.y P - cameraY) * 20 + canvasHeight / 2)%Q
  ∧ (Canvas.left tile <= Canvas.left marker + Canvas.width marker / 2)%Q
  ∧ (Canvas.left marker + Canvas.width marker / 2
     < Canvas.left tile + Canvas.width tile)%Q
  ∧ (Canvas.top tile <= Canvas.top marker + Canvas.height marker / 2)%Q
  ∧ (Canvas.top marker + Canvas.height marker / 2
     < Canvas.top tile + Canvas.height tile)%Q
  ∧ ((cameraX == Player.x P)%Q →
     (Canvas.left marker + Canvas.width marker / 2 == canvasWidth / 2)%Q)
  ∧ ((cameraY == Player.y P)%Q →
     (Canvas.top marker + Canvas.height marker / 2 == canvasHeight / 2)%Q).
Proof.
  cbv zeta. unfold Painting.Player_draw, tileRect, TILE_SIZE.
  cbn [Canvas.fill Canvas.left Canvas.top Canvas.width Canvas.height].
  pose proof (Qfloor_le (Player.x P)) as Hx0.
  pose proof (Qlt_floor (Player.x P)) as Hx1.
  pose proof (Qfloor_le (Player.y P)) as Hy0.
  pose proof (Qlt_floor (Player.y P)) as Hy1.
  rewrite inject_Z_plus in Hx1, Hy1.
  change (inject_Z 1) with 1%Q in *. change (inject_Z 20) with 20%Q.
  unfold JS.floor.
  split; [done|]. split; [reflexivity|]. split; [reflexivity|].
  split; [field|]. split; [field|].
  split; [lra|]. split; [lra|]. split; [lra|]. split; [lra|].
  split; intros ->; field.
Qed.

(** X20.  [getChunk] builds grids of edge 16 whatever the chunk size of the
    terrain is.  For a chunk size from 1 to 16 a height query therefore
    never raises, but for a size below 16 it reads the grid with the wrong
    stride: it returns the height of the world tile
    [floor(x) + (16 - chunkSize) * chunkX] (and the same along Y), which is
    the tile under the point only in chunk 0 or with chunk size 16. *)
Theorem getValue_stride (tileSize chunkSize : Z) (noise : Q → Q → Q)
    (ops : list Op) (x y : Q)
    (Hlo : 0 < chunkSize) (Hhi : chunkSize <= 16) :
  (Terrain.getValue (run (Terrain.new tileSize chunkSize noise) ops) x y).1
  = Ok (Chunk.tileValue noise
          (JS.floor x + (16 - chunkSize) * Terrain.chunkCoord chunkSize x)
          (JS.floor y + (16 - chunkSize) * Terrain.chunkCoord chunkSize y)).
Proof.
  destruct (run_fresh_inv tileSize chunkSize noise ops) as (Hc & Hs & Hn).
  destruct (decompose_axis x chunkSize Hlo) as [Ex Hx].
  destruct (decompose_axis y chunkSize Hlo) as [Ey Hy].
  destruct (getValue_outcomes _ x y Hc) as (H & _ & _).
  rewrite Hs, Hn in H. rewrite H by lia.
  unfold Chunk.worldCoord. f_equal. f_equal; lia.
Qed.

Lemma getValue_stride_witness :
  (Terrain.getValue (run (Terrain.new 20 8 spike) [OpDraw 0 0])
                    (17 # 2) (- (1 # 2))).1
  = Ok (Chunk.tileValue spike
          (JS.floor (17 # 2) + (16 - 8) * Terrain.chunkCoord 8 (17 # 2))
          (JS.floor (- (1 # 2)) + (16 - 8) * Terrain.chunkCoord 8 (- (1 # 2)))).
Proof.
  assert (0 < 8) as H1 by lia.
  assert (8 <= 16) as H2 by lia.
  exact (getValue_stride 20 8 spike [OpDraw 0 0] (17 # 2) (- (1 # 2)) H1 H2).
Defined.
